(** * go-task-runner: a shallow embedding of [runner.go]

    The package runs a list of tasks either sequentially ([Run]) or split
    among [n] goroutines ([RunConc]).  Both entry points share the core loop
    [run].  This development embeds the three of them, together with
    [safeRunnerQuantity] and [concMode], and states the properties of the
    specification against the embedding.

    Modelling choices.

    - Go's [int] is modelled by [Z].  Every arithmetic result of the package
      ([i * span], [start + span], [i + offset], [l - 1], [runners - 1]) is
      bounded by twice the length of a slice, so no operation can leave the
      64-bit range; the quotient is Go's truncated one ([Z.quot]) and panics
      on a zero divisor.  The core loop [run] on its own accepts any
      offset: what is stated of it outside of [Run] and [RunConc] assumes
      that the indices it computes fit an [int] ([fits_int]).
    - A slice is modelled by the list of its elements, so a nil slice and
      an empty one are both [[]].  Go code can tell them apart, and on a
      program without tasks [Run] returns an empty slice where [RunConc]
      returns (and hands to the on-finish hook) a nil one: a statement
      that identifies a run of [RunConc] with a run of [Run] is made for
      programs with at least one task.
    - A [Task] is a closure [func() interface{}]: it may read and write the
      caller's memory [St] and returns a value of the opaque type [V].
      Hooks are closures over the same memory.
    - Code that calls back into the caller is written in a small free monad
      [Proc]; one constructor is one atomic step of a goroutine.  The
      sequential semantics [exec] runs a [Proc] to completion, the
      concurrent one [interleave] runs a pool of them under an arbitrary
      schedule.
    - Every callback invocation and every pause is recorded in a [trace],
      which is what the statements about hooks and pacing speak about.
    - A call of a task or of a hook is one atomic step and always returns;
      what a run does when a callback aborts is left open by the package.
    - Time is not modelled: a pause is an observation carrying its
      duration.
    - In [RunConc] the main goroutine only receives while the runners work,
      and the channel is a queue with room for every message; so the
      messages gathered are the messages sent, in sending order. *)

From stdpp Require Import base numbers list list_numbers sorting strings pretty
  gmap.

Open Scope Z_scope.

(** ** Go built-ins *)

Definition len {A} (l : list A) : Z := Z.of_nat (length l).

(** [a / b] on [int]: truncated quotient, run-time panic when [b = 0]. *)
Definition go_div (a b : Z) : option Z :=
  if bool_decide (b = 0) then None else Some (Z.quot a b).

(** [int] has 32 or 64 bits, depending on the platform.  An integer that
    fits 32 bits is an [int] everywhere, and on such integers the
    arithmetic of [int] is the one of [Z]. *)
Definition fits_int (z : Z) : Prop := - 2 ^ 31 ≤ z < 2 ^ 31.

(** [s[lo:hi]]: panics unless [0 <= lo <= hi <= len(s)] (the capacity of
    [p.Tasks] is at least its length; the package never slices beyond it). *)
Definition go_slice {A} (s : list A) (lo hi : Z) : option (list A) :=
  if bool_decide (0 ≤ lo ∧ lo ≤ hi ∧ hi ≤ len s)
  then Some (take (Z.to_nat (hi - lo)) (drop (Z.to_nat lo) s))
  else None.

(** [s[i] = v]: panics when the index is out of range. *)
Definition go_store {A} (s : list A) (i : Z) (v : A) : option (list A) :=
  if bool_decide (0 ≤ i ∧ i < len s)
  then Some (<[Z.to_nat i := v]> s)
  else None.

(** [sort.SliceStable]: a stable sort for the given [less]; an element is
    placed before the first later element that is not smaller than it. *)
Fixpoint insert_stable {A} (less : A → A → bool) (x : A) (l : list A) : list A :=
  match l with
  | [] => [x]
  | y :: l' => if less y x then y :: insert_stable less x l' else x :: y :: l'
  end.

Definition SliceStable {A} (less : A → A → bool) (l : list A) : list A :=
  foldr (insert_stable less) [] l.

(** ** safeRunnerQuantity and the zones of RunConc *)

Definition safeRunnerQuantity (runners length : Z) : Z :=
  if bool_decide (runners > length) then length
  else if bool_decide (runners < 1) then 1
  else runners.

(** The body of the dispatch loop of [RunConc] up to the slice expression:
    the bounds [start], [end] of the zone of runner [i]. *)
Definition zone (length runners span i : Z) : Z * Z :=
  let isLastRunner := bool_decide (i = runners - 1) in
  let start := i * span in
  let end_ := start + span in
  let end_ := if isLastRunner then length else end_ in
  (start, end_).

(** All zones, in the order the loop [for i := 0; i < runners; i++]
    computes them. *)
Definition zones (length runners span : Z) : list (Z * Z) :=
  zone length runners span <$> seqZ 0 runners.

(** The sub-sequence of [s] a zone designates. *)
Definition shard {A} (s : list A) (z : Z * Z) : list A :=
  take (Z.to_nat (z.2 - z.1)) (drop (Z.to_nat z.1) s).

Section runner.

Context {V St : Type}.

(** The zero value of [interface{}], with which [make] fills a slice. *)
Context (vnil : V).

(** ** The data model *)

Definition Task : Type := St → V * St.

Record Program : Type := mkProgram {
  Tasks : list Task;
  Interval : Z;
  PreHook : option (Z → St → St);
  PostHook : option (Z → V → St → St);
  OnStart : option (St → St);
  OnFinish : option (list V → St → St);
  isConc : bool
}.

Record trackedResult : Type := mkTracked {
  id : Z;
  res : list V
}.

(** What an observer of a run sees: each callback with its arguments, each
    task with the value it returned, each pause with its duration. *)
Inductive Event : Type :=
| EvStart
| EvPre (i : Z)
| EvTask (v : V)
| EvPost (i : Z) (v : V)
| EvSleep (d : Z)
| EvFinish (results : list V).

(** The receiver [*p], the caller's memory, and the observations so far. *)
Record State : Type := mkState {
  prog : Program;
  world : St;
  trace : list Event
}.

Definition observe (e : Event) (s : State) : State :=
  {| prog := prog s; world := world s; trace := trace s ++ [e] |}.

Definition with_world (σ : St) (s : State) : State :=
  {| prog := prog s; world := σ; trace := trace s |}.

Definition write_isConc (b : bool) (s : State) : State :=
  {| prog := {| Tasks := Tasks (prog s); Interval := Interval (prog s);
                PreHook := PreHook (prog s); PostHook := PostHook (prog s);
                OnStart := OnStart (prog s); OnFinish := OnFinish (prog s);
                isConc := b |};
     world := world s; trace := trace s |}.

(** ** Code with effects *)

Inductive Proc (A : Type) : Type :=
| Ret (a : A)
| Load (k : Program → Proc A)
| SetIsConc (b : bool) (k : Proc A)
| Invoke (h : St → St) (e : Event) (k : Proc A)
| Call (f : Task) (k : V → Proc A)
| Sleep (d : Z) (k : Proc A)
| Send (r : trackedResult) (k : Proc A)
| Panic.

Global Arguments Ret {A} a.
Global Arguments Load {A} k.
Global Arguments SetIsConc {A} b k.
Global Arguments Invoke {A} h e k.
Global Arguments Call {A} f k.
Global Arguments Sleep {A} d k.
Global Arguments Send {A} r k.
Global Arguments Panic {A}.

Fixpoint bind {A B} (m : Proc A) (f : A → Proc B) : Proc B :=
  match m with
  | Ret a => f a
  | Load k => Load (λ p, bind (k p) f)
  | SetIsConc b k => SetIsConc b (bind k f)
  | Invoke h e k => Invoke h e (bind k f)
  | Call t k => Call t (λ v, bind (k v) f)
  | Sleep d k => Sleep d (bind k f)
  | Send r k => Send r (bind k f)
  | Panic => Panic
  end.

Global Instance Proc_ret : MRet Proc := λ A a, Ret a.
Global Instance Proc_bind : MBind Proc := λ A B f m, bind m f.

(** Primitive operations as one-step procedures. *)
Definition load : Proc Program := Load Ret.
Definition invoke (h : St → St) (e : Event) : Proc unit := Invoke h e (Ret tt).
Definition call (f : Task) : Proc V := Call f Ret.
Definition sleep (d : Z) : Proc unit := Sleep d (Ret tt).
Definition send (r : trackedResult) : Proc unit := Send r (Ret tt).
Definition skip : Proc unit := Ret tt.
Definition guard {A} (o : option A) : Proc A :=
  match o with Some a => Ret a | None => Panic end.

(** ** The methods of [*Program] *)

(** [if p.PreHook != nil { p.PreHook(idx) }] and its three siblings. *)
Definition callPreHook (idx : Z) : Proc unit :=
  p ← load;
  match PreHook p with Some h => invoke (h idx) (EvPre idx) | None => skip end.

Definition callPostHook (idx : Z) (v : V) : Proc unit :=
  p ← load;
  match PostHook p with Some h => invoke (h idx v) (EvPost idx v) | None => skip end.

Definition callOnStart : Proc unit :=
  p ← load;
  match OnStart p with Some h => invoke h EvStart | None => skip end.

Definition callOnFinish (results : list V) : Proc unit :=
  p ← load;
  match OnFinish p with Some h => invoke (h results) (EvFinish results) | None => skip end.

(** [if p.Interval > 0 && !isLast { time.Sleep(p.Interval) }] *)
Definition pause (isLast : bool) : Proc unit :=
  p ← load;
  if bool_decide (Interval p > 0) && negb isLast then sleep (Interval p) else skip.

(** The loop of [run], entered at index [i] with [tasks] still to range
    over. *)
Fixpoint run_from (l offset i : Z) (tasks : list Task) (results : list V)
  : Proc (list V) :=
  match tasks with
  | [] => mret results
  | f :: tasks' =>
      let isLast := bool_decide (i = l - 1) in
      callPreHook (i + offset);;
      v ← call f;
      results ← guard (go_store results i v);
      callPostHook (i + offset) v;;
      pause isLast;;
      run_from l offset (i + 1) tasks' results
  end.

Definition run (tasks : list Task) (offset : Z) : Proc (list V) :=
  let l := len tasks in
  let results := replicate (Z.to_nat l) vnil in
  run_from l offset 0 tasks results.

(** [concMode] sets [p.isConc]; nothing in the package calls it. *)
Definition concMode (activate : bool) : Proc unit :=
  if activate then SetIsConc true (Ret tt) else SetIsConc false (Ret tt).

(** The goroutine started for runner [i]:
    [rawPartial <- trackedResult{i, p.run(part, i)}]. *)
Definition goroutine (part : list Task) (i : Z) : Proc unit :=
  r ← run part i;
  send {| id := i; res := r |}.

(** ** Semantics *)

(** How a call ends: it returns, it panics (deferred calls of the panicking
    goroutine still run), or the whole process dies (a panic inside another
    goroutine, or every goroutine blocked for ever). *)
Inductive Outcome (A : Type) : Type :=
| Returned (a : A)
| Panicked
| Crashed.

Global Arguments Returned {A} a.
Global Arguments Panicked {A}.
Global Arguments Crashed {A}.

(** One atomic step of a goroutine: the rest of its code, the new state and
    what it sent on the channel. *)
Definition step {A} (w : Proc A) (s : State)
  : Proc A * State * list trackedResult :=
  match w with
  | Ret a => (Ret a, s, [])
  | Load k => (k (prog s), s, [])
  | SetIsConc b k => (k, write_isConc b s, [])
  | Invoke h e k => (k, observe e (with_world (h (world s)) s), [])
  | Call f k =>
      let '(v, σ) := f (world s) in
      (k v, observe (EvTask v) (with_world σ s), [])
  | Sleep d k => (k, observe (EvSleep d) s, [])
  | Send r k => (k, s, [r])
  | Panic => (Panic, s, [])
  end.

(** A goroutine running alone, to completion. *)
Fixpoint exec {A} (w : Proc A) (s : State)
  : Outcome A * State * list trackedResult :=
  match w with
  | Ret a => (Returned a, s, [])
  | Load k => exec (k (prog s)) s
  | SetIsConc b k => exec k (write_isConc b s)
  | Invoke h e k => exec k (observe e (with_world (h (world s)) s))
  | Call f k =>
      let '(v, σ) := f (world s) in
      exec (k v) (observe (EvTask v) (with_world σ s))
  | Sleep d k => exec k (observe (EvSleep d) s)
  | Send r k => let '(o, s', sent) := exec k s in (o, s', r :: sent)
  | Panic => (Panicked, s, [])
  end.

(** The goroutines of a pool, each run to completion, in pool order.
    [None]: one of them panicked. *)
Fixpoint run_all (pool : list (Proc unit)) (s : State)
  : option (State * list trackedResult) :=
  match pool with
  | [] => Some (s, [])
  | w :: pool' =>
      match exec w s with
      | (Returned _, s', sent) =>
          '(s'', sent') ← run_all pool' s';
          Some (s'', sent ++ sent')
      | _ => None
      end
  end.

(** A pool under a schedule: [sched] names, step after step, the goroutine
    that moves; when the schedule is used up the remaining code of each
    goroutine runs in pool order.  Every interleaving of the atomic steps
    of the pool is obtained from some schedule.  The result carries the
    content of the channel in sending order (the channel is buffered with
    room for every message, so no send blocks). *)
Fixpoint interleave (sched : list nat) (pool : list (Proc unit)) (s : State)
  : option (State * list trackedResult) :=
  match sched with
  | [] => run_all pool s
  | k :: sched' =>
      match pool !! k with
      | None => interleave sched' pool s
      | Some Panic => None
      | Some w =>
          let '(w', s', sent) := step w s in
          '(s'', sent') ← interleave sched' (<[k := w']> pool) s';
          Some (s'', sent ++ sent')
      end
  end.

(** The named result as a deferred closure reads it: still nil when the
    body did not reach its assignment. *)
Definition named_result {A} (o : Outcome (list A)) : list A :=
  match o with Returned r => r | _ => [] end.

(** [Run]: on-start hook, the core loop over all tasks with offset 0, and
    the deferred on-finish hook on the named result. *)
Definition Run (s : State) : Outcome (list V) * State :=
  let '(_, s, _) := exec callOnStart s in
  let '(o, s, _) := exec (run (Tasks (prog s)) 0) s in
  let results := named_result o in
  let '(_, s, _) := exec (callOnFinish results) s in
  (o, s).

(** The dispatch loop of [RunConc]: one goroutine per runner, over its zone
    of [p.Tasks]. *)
Definition dispatch (tasks : list Task) (length runners span : Z)
  : option (list (Proc unit)) :=
  mapM (λ i,
    let '(start, end_) := zone length runners span i in
    part ← go_slice tasks start end_;
    Some (goroutine part i)) (seqZ 0 runners).

(** The gathering loop: [runners] receptions from the channel.  With fewer
    messages than that and no goroutine left, the receiver blocks. *)
Definition gather (runners : Z) (rawPartial : list trackedResult)
  : option (list trackedResult) :=
  if bool_decide (runners ≤ len rawPartial)
  then Some (take (Z.to_nat runners) rawPartial)
  else None.

Definition less_id (a b : trackedResult) : bool := bool_decide (id a < id b).

Definition RunConc_body (n : Z) (sched : list nat) (s : State)
  : Outcome (list V) * State :=
  let length := len (Tasks (prog s)) in
  let runners := safeRunnerQuantity n length in
  match go_div length runners with
  | None => (Panicked, s)
  | Some span =>
      match dispatch (Tasks (prog s)) length runners span with
      | None => (Panicked, s)
      | Some pool =>
          match interleave sched pool s with
          | None => (Crashed, s)
          | Some (s', rawPartial) =>
              match gather runners rawPartial with
              | None => (Crashed, s')
              | Some rawResults =>
                  let rawResults := SliceStable less_id rawResults in
                  let results :=
                    foldl (λ results v, results ++ res v) [] rawResults in
                  (Returned results, s')
              end
          end
      end
  end.

(** [RunConc]: the same on-start and deferred on-finish as [Run] around the
    concurrent body.  After a crash nothing runs any more. *)
Definition RunConc (n : Z) (sched : list nat) (s : State)
  : Outcome (list V) * State :=
  let '(_, s, _) := exec callOnStart s in
  let '(o, s) := RunConc_body n sched s in
  match o with
  | Crashed => (Crashed, s)
  | _ =>
      let results := named_result o in
      let '(_, s, _) := exec (callOnFinish results) s in
      (o, s)
  end.

(** ** Specification vocabulary *)

(** [returns f v]: [v] is a value task [f] returns, from some memory. *)
Definition returns (f : Task) (v : V) : Prop := ∃ σ, (f σ).1 = v.

(** A pure task: it always returns the same value and leaves the caller's
    memory alone. *)
Definition pure_task (f : Task) (v : V) : Prop := ∀ σ, f σ = (v, σ).

Definition is_start (e : Event) : bool := match e with EvStart => true | _ => false end.
Definition is_pre (e : Event) : bool := match e with EvPre _ => true | _ => false end.
Definition is_task (e : Event) : bool := match e with EvTask _ => true | _ => false end.
Definition is_post (e : Event) : bool := match e with EvPost _ _ => true | _ => false end.
Definition is_sleep (e : Event) : bool := match e with EvSleep _ => true | _ => false end.
Definition is_finish (e : Event) : bool := match e with EvFinish _ => true | _ => false end.

Definition count (φ : Event → bool) (t : list Event) : nat :=
  length (filter (λ e, φ e) t).

(** The hook events a configuration lets through. *)
Definition start_events (p : Program) : list Event :=
  if OnStart p is Some _ then [EvStart] else [].

Definition finish_events (p : Program) (results : list V) : list Event :=
  if OnFinish p is Some _ then [EvFinish results] else [].

(** The observations the specification prescribes for one task of the core
    loop: pre-task hook if configured, the task, post-task hook if
    configured, then the pause unless the task is the last one of the
    sub-sequence or no positive interval is configured. *)
Definition task_events (p : Program) (isLast : bool) (idx : Z) (v : V)
  : list Event :=
  (if PreHook p is Some _ then [EvPre idx] else []) ++
  [EvTask v] ++
  (if PostHook p is Some _ then [EvPost idx v] else []) ++
  (if bool_decide (Interval p > 0) && negb isLast then [EvSleep (Interval p)] else []).

(** The observations of the core loop over a sub-sequence of [l] tasks
    whose tasks from local index [i] on return [vs]. *)
Fixpoint loop_events (p : Program) (l offset i : Z) (vs : list V)
  : list Event :=
  match vs with
  | [] => []
  | v :: vs' =>
      task_events p (bool_decide (i = l - 1)) (i + offset) v ++
      loop_events p l offset (i + 1) vs'
  end.

(** Weakest precondition of a procedure for a receiver [p] that nobody
    writes: on every path the procedure returns, and the value returned,
    the events observed and the messages sent satisfy [Q]. *)
Fixpoint wp {A} (p : Program) (w : Proc A)
  (Q : A → list Event → list trackedResult → Prop) : Prop :=
  match w with
  | Ret a => Q a [] []
  | Load k => wp p (k p) Q
  | SetIsConc _ _ => False
  | Invoke h e k => wp p k (λ a t m, Q a (e :: t) m)
  | Call f k => ∀ σ, wp p (k (f σ).1) (λ a t m, Q a (EvTask (f σ).1 :: t) m)
  | Sleep d k => wp p k (λ a t m, Q a (EvSleep d :: t) m)
  | Send r k => wp p k (λ a t m, Q a t (r :: m))
  | Panic => False
  end.

(** A procedure that never writes the receiver. *)
Fixpoint read_only {A} (w : Proc A) : Prop :=
  match w with
  | Ret _ | Panic => True
  | Load k => ∀ p, read_only (k p)
  | SetIsConc _ _ => False
  | Invoke _ _ k | Sleep _ k | Send _ k => read_only k
  | Call _ k => ∀ v, read_only (k v)
  end.

(** What a callback observed as [e] does to the caller's memory, for the
    hooks of program [p]; tasks and pauses are not replayed. *)
Definition replay_event (p : Program) (e : Event) (σ : St) : St :=
  match e with
  | EvStart => if OnStart p is Some h then h σ else σ
  | EvPre i => if PreHook p is Some h then h i σ else σ
  | EvPost i v => if PostHook p is Some h then h i v σ else σ
  | EvFinish r => if OnFinish p is Some h then h r σ else σ
  | EvTask _ | EvSleep _ => σ
  end.

Definition replay (p : Program) (t : list Event) (σ : St) : St :=
  foldl (λ σ e, replay_event p e σ) σ t.

(** From [s] to [s'] the receiver is still [p], the trace has only grown,
    and the caller's memory is the old one with the new observations
    replayed on it. *)
Definition replays (p : Program) (s s' : State) : Prop :=
  prog s' = p ∧ ∃ t, trace s' = trace s ++ t ∧ world s' = replay p t (world s).

(** A task that leaves the caller's memory as it found it. *)
Definition memory_neutral (f : Task) : Prop := ∀ σ, (f σ).2 = σ.

(** A procedure that, run on receiver [p], touches the caller's memory only
    through the hooks of [p], each observed as the event of that hook, and
    through memory-neutral tasks. *)
Fixpoint replayable {A} (p : Program) (w : Proc A) : Prop :=
  match w with
  | Ret _ | Panic => True
  | Load k => replayable p (k p)
  | SetIsConc _ _ => False
  | Invoke h e k => (∀ σ, h σ = replay_event p e σ) ∧ replayable p k
  | Call f k => memory_neutral f ∧ ∀ v, replayable p (k v)
  | Sleep _ k | Send _ k => replayable p k
  end.

(** The program with its [isConc] field set to [b], all else equal. *)
Definition flag_program (b : bool) (p : Program) : Program :=
  {| Tasks := Tasks p; Interval := Interval p; PreHook := PreHook p;
     PostHook := PostHook p; OnStart := OnStart p; OnFinish := OnFinish p;
     isConc := b |}.

(** A procedure that neither writes the receiver nor lets its [isConc]
    field decide anything: what it does after reading the receiver is the
    same whatever the flag. *)
Fixpoint flag_blind {A} (w : Proc A) : Prop :=
  match w with
  | Ret _ | Panic => True
  | Load k => (∀ b p, k (flag_program b p) = k p) ∧ ∀ p, flag_blind (k p)
  | SetIsConc _ _ => False
  | Invoke _ _ k | Sleep _ k | Send _ k => flag_blind k
  | Call _ k => ∀ v, flag_blind (k v)
  end.

End runner.

Global Arguments Program : clear implicits.
Global Arguments trackedResult : clear implicits.
Global Arguments Event : clear implicits.
Global Arguments State : clear implicits.
Global Arguments Task : clear implicits.
Global Arguments Proc : clear implicits.

(** ** The programs of the test suite *)

(** [tasks(n)]: [n] tasks, the [i]-th returning ["task"+i]. *)
Definition tasks {St : Type} (n : nat) : list (Task string St) :=
  (λ (i : nat) (σ : St), ("task" +:+ pretty i, σ)) <$> seq 0 n.

(** [Program{Tasks: tasks(n)}], as in [TestResults]. *)
Definition bare (n : nat) : Program string unit :=
  {| Tasks := tasks n; Interval := 0; PreHook := None; PostHook := None;
     OnStart := None; OnFinish := None; isConc := false |}.

(** A program with the four hooks set, as in [TestHooks] and [example]; the
    caller's memory counts the callbacks received. *)
Definition hooked (n : nat) (interval : Z) : Program string nat :=
  {| Tasks := tasks n; Interval := interval;
     PreHook := Some (λ _ c, S c); PostHook := Some (λ _ _ c, S c);
     OnStart := Some S; OnFinish := Some (λ _ c, S c); isConc := false |}.

Definition initial {V St : Type} (p : Program V St) (σ : St) : State V St :=
  {| prog := p; world := σ; trace := [] |}.




(** * Properties *)

(** The branches of [safeRunnerQuantity]. *)
Ltac runner_cases :=
  unfold safeRunnerQuantity; repeat case_bool_decide; lia.

Section theory.

Context {V St : Type} (vnil : V).

Implicit Types (p : Program V St) (s : State V St) (t : list (Event V)).
Implicit Types (m : list (trackedResult V)) (f : Task V St) (v : V).

(** ** The monad and its two semantics *)

Lemma bind_unfold {A B} (w : Proc V St A) (k : A → Proc V St B) :
  w ≫= k = bind w k.
Proof. reflexivity. Qed.

Lemma exec_bind {A B} (w : Proc V St A) (k : A → Proc V St B) s :
  exec (bind w k) s =
  match exec w s with
  | (Returned a, s', sent) =>
      let '(o, s'', sent') := exec (k a) s' in (o, s'', sent ++ sent')
  | (Panicked, s', sent) => (Panicked, s', sent)
  | (Crashed, s', sent) => (Crashed, s', sent)
  end.
Proof.
  revert s. induction w as [a|k' IH|b k' IH|h e k' IH|f k' IH|d k' IH|r k' IH|];
    intros s; simpl.
  - by destruct (exec (k a) s) as [[o s'] sent].
  - apply IH.
  - apply IH.
  - apply IH.
  - destruct (f (world s)) as [v σ]. apply IH.
  - apply IH.
  - rewrite IH. destruct (exec k' s) as [[[a| |] s'] sent]; [|done..].
    by destruct (exec (k a) s') as [[o s''] sent'].
  - done.
Qed.

(** [step] then [exec] is [exec]. *)
Lemma exec_step {A} (w : Proc V St A) s :
  exec w s =
  let '(w', s', sent) := step w s in
  let '(o, s'', sent') := exec w' s' in (o, s'', sent ++ sent').
Proof.
  destruct w as [a|k|b k|h e k|f k|d k|r k|]; simpl; try done.
  all: try (destruct (f (world s)) as [v σ]; simpl).
  all: by destruct (exec _ _) as [[??]?].
Qed.

(** A pool of one goroutine behaves, under every schedule, as the goroutine
    running alone. *)
Lemma interleave_single (sched : list nat) (w : Proc V St unit) s :
  interleave sched [w] s =
  match exec w s with
  | (Returned _, s', sent) => Some (s', sent)
  | _ => None
  end.
Proof.
  revert w s. induction sched as [|k sched IH]; intros w s.
  - simpl. destruct (exec w s) as [[[a| |] s'] sent]; [|done..].
    simpl. by rewrite app_nil_r.
  - destruct k as [|k]; [|apply IH].
    rewrite (exec_step w s).
    destruct w as [a|k|b k|h e k|f k|d k|r k|]; simpl; try done.
    all: try (destruct (f (world s)) as [v σ]; simpl).
    all: rewrite IH; simpl; try done.
    all: by destruct (exec _ _) as [[[a'| |] s'] sent].
Qed.

(** ** Reasoning with weakest preconditions *)

Lemma wp_mono {A} p (w : Proc V St A)
    (Q Q' : A → list (Event V) → list (trackedResult V) → Prop) :
  (∀ a t m, Q a t m → Q' a t m) → wp p w Q → wp p w Q'.
Proof.
  revert Q Q'.
  induction w as [a|k IH|b k IH|h e k IH|f k IH|d k IH|r k IH|];
    intros Q Q' HQ; simpl; eauto.
  - intros H. eapply IH; [|exact H]. eauto.
  - intros H σ. eapply IH; [|exact (H σ)]. eauto.
  - intros H. eapply IH; [|exact H]. eauto.
  - intros H. eapply IH; [|exact H]. eauto.
Qed.

Lemma wp_bind {A B} p (w : Proc V St A) (k : A → Proc V St B) Q :
  wp p w (λ a t1 m1, wp p (k a) (λ b t2 m2, Q b (t1 ++ t2) (m1 ++ m2))) →
  wp p (bind w k) Q.
Proof.
  revert Q.
  induction w as [a|k' IH|b k' IH|h e k' IH|f k' IH|d k' IH|r k' IH|];
    intros Q; simpl; try done.
  - apply IH.
  - intros H. by apply IH.
  - intros H σ. by apply IH.
  - intros H. by apply IH.
  - intros H. by apply IH.
Qed.

(** Adequacy for a goroutine running alone. *)
Lemma wp_exec {A} p (w : Proc V St A) Q s :
  prog s = p → wp p w Q →
  ∃ a s' t m, exec w s = (Returned a, s', m) ∧ prog s' = p ∧
              world s' = world (exec w s).1.2 ∧
              trace s' = trace s ++ t ∧ Q a t m.
Proof.
  revert Q s.
  induction w as [a|k IH|b k IH|h e k IH|f k IH|d k IH|r k IH|];
    intros Q s Hp H; simpl in *; try done.
  - exists a, s, [], []. by rewrite app_nil_r.
  - subst p. by apply IH.
  - destruct (IH _ (observe e (with_world (h (world s)) s)) Hp H)
      as (a & s' & t & m & -> & ? & ? & Ht & ?).
    exists a, s', (e :: t), m. split_and!; try done.
    rewrite Ht. simpl. by rewrite <-app_assoc.
  - specialize (H (world s)). destruct (f (world s)) as [v σ]. simpl in *.
    destruct (IH _ _ (observe (EvTask v) (with_world σ s)) Hp H)
      as (a & s' & t & m & -> & ? & ? & Ht & ?).
    exists a, s', (EvTask v :: t), m. split_and!; try done.
    rewrite Ht. simpl. by rewrite <-app_assoc.
  - destruct (IH _ (observe (EvSleep d) s) Hp H)
      as (a & s' & t & m & -> & ? & ? & Ht & ?).
    exists a, s', (EvSleep d :: t), m. split_and!; try done.
    rewrite Ht. simpl. by rewrite <-app_assoc.
  - destruct (IH _ s Hp H) as (a & s' & t & m & -> & ? & ? & Ht & ?).
    by exists a, s', t, (r :: m).
Qed.

(** Adequacy for one atomic step. *)
Lemma wp_step {A} p (w : Proc V St A) Q s :
  prog s = p → wp p w Q →
  ∃ w' s' t m, step w s = (w', s', m) ∧ prog s' = p ∧
               trace s' = trace s ++ t ∧
               wp p w' (λ a t' m', Q a (t ++ t') (m ++ m')).
Proof.
  intros Hp H.
  destruct w as [a|k|b k|h e k|f k|d k|r k|]; simpl in *; try done.
  - exists (Ret a), s, [], []. by rewrite app_nil_r.
  - exists (k (prog s)), s, [], []. rewrite app_nil_r. by subst p.
  - by exists k, (observe e (with_world (h (world s)) s)), [e], [].
  - specialize (H (world s)). destruct (f (world s)) as [v σ]. simpl in *.
    by exists (k v), (observe (EvTask v) (with_world σ s)), [EvTask v], [].
  - by exists k, (observe (EvSleep d) s), [EvSleep d], [].
  - exists k, s, [], [r]. by rewrite app_nil_r.
Qed.

(** ** Pools of goroutines *)

Lemma concat_insert_app {A} (l : list (list A)) k x y :
  l !! k = Some x → concat (<[k := y ++ x]> l) ≡ₚ y ++ concat l.
Proof.
  revert k. induction l as [|x0 l IH]; intros [|k] Hk; simplify_eq/=.
  - by rewrite <-app_assoc.
  - rewrite (IH _ Hk), !app_assoc. f_equiv. apply Permutation_app_comm.
Qed.

Lemma Forall2_insert_back {A B} (R : A → B → Prop) l1 l2 k a a' b :
  l1 !! k = Some a → Forall2 R (<[k := a']> l1) l2 → R a b →
  Forall2 R l1 (<[k := b]> l2).
Proof.
  intros Hk HF HR.
  rewrite <-(list_insert_id l1 k a Hk), <-(list_insert_insert_eq l1 k a a').
  by apply Forall2_insert.
Qed.

Lemma interleave_cons k sched (pool : list (Proc V St unit)) s w :
  pool !! k = Some w → w ≠ Panic →
  interleave (k :: sched) pool s =
  let '(w', s', sent) := step w s in
  '(s'', sent') ← interleave sched (<[k := w']> pool) s';
  Some (s'', sent ++ sent').
Proof. intros Hk Hw. simpl. rewrite Hk. by destruct w. Qed.

Lemma run_all_wp p (pool : list (Proc V St unit)) Qs s :
  prog s = p → Forall2 (λ w Q, wp p w (λ _, Q)) pool Qs →
  ∃ s' tms, run_all pool s = Some (s', concat tms.*2) ∧ prog s' = p ∧
            trace s' = trace s ++ concat tms.*1 ∧
            Forall2 (λ Q tm, Q tm.1 tm.2) Qs tms.
Proof.
  intros Hp HF. revert s Hp.
  induction HF as [|w Q pool Qs Hw _ IH]; intros s Hp.
  - exists s, []. by rewrite app_nil_r.
  - destruct (wp_exec _ _ _ _ Hp Hw) as ([] & s1 & t1 & m1 & He & Hp1 & _ & Ht1 & HQ).
    destruct (IH s1 Hp1) as (s' & tms & Hr & ? & Ht & ?).
    exists s', ((t1, m1) :: tms). simpl. rewrite He, Hr. simpl.
    split_and!; try done; [|by constructor].
    by rewrite Ht, Ht1, <-app_assoc.
Qed.

(** Adequacy for a pool under any schedule: every goroutine meets its
    postcondition, and the events observed (the messages sent) are those of
    the goroutines, in some interleaving. *)
Lemma interleave_wp p sched (pool : list (Proc V St unit)) Qs s :
  prog s = p → Forall2 (λ w Q, wp p w (λ _, Q)) pool Qs →
  ∃ s' T M tms, interleave sched pool s = Some (s', M) ∧ prog s' = p ∧
                trace s' = trace s ++ T ∧
                Forall2 (λ Q tm, Q tm.1 tm.2) Qs tms ∧
                T ≡ₚ concat tms.*1 ∧ M ≡ₚ concat tms.*2.
Proof.
  revert pool Qs s. induction sched as [|k sched IH]; intros pool Qs s Hp HF.
  - destruct (run_all_wp _ _ _ _ Hp HF) as (s' & tms & ? & ? & ? & ?).
    by exists s', (concat tms.*1), (concat tms.*2), tms.
  - destruct (pool !! k) as [w|] eqn:Hk; [|simpl; rewrite Hk; by apply IH].
    destruct (Forall2_lookup_l _ _ _ _ _ HF Hk) as (Q & HQk & Hw).
    rewrite (interleave_cons _ _ _ _ w) by (done || by intros ->).
    destruct (wp_step _ _ _ _ Hp Hw) as (w' & s1 & t1 & m1 & -> & Hp1 & Ht1 & Hw').
    destruct (IH (<[k := w']> pool) (<[k := λ t' m', Q (t1 ++ t') (m1 ++ m')]> Qs)
                 s1 Hp1) as (s' & T & M & tms & -> & ? & Ht & Hmet & HT & HM).
    { by apply Forall2_insert. }
    assert (<[k := λ t' m', Q (t1 ++ t') (m1 ++ m')]> Qs !! k
            = Some (λ t' m', Q (t1 ++ t') (m1 ++ m'))) as Hins.
    { apply list_lookup_insert_eq. by eapply lookup_lt_Some. }
    destruct (Forall2_lookup_l _ _ _ _ _ Hmet Hins) as ([tk mk] & Htk & HQ).
    exists s', (t1 ++ T), (m1 ++ M), (<[k := (t1 ++ tk, m1 ++ mk)]> tms).
    split_and!; try done.
    + by rewrite Ht, Ht1, <-app_assoc.
    + by eapply Forall2_insert_back.
    + rewrite list_fmap_insert. simpl. rewrite concat_insert_app, HT; [done|].
      by rewrite list_lookup_fmap, Htk.
    + rewrite list_fmap_insert. simpl. rewrite concat_insert_app, HM; [done|].
      by rewrite list_lookup_fmap, Htk.
Qed.

(** ** The callbacks and the core loop *)

Lemma wp_callPreHook p idx (Q : unit → _ → _ → Prop) :
  Q tt (if PreHook p is Some _ then [EvPre idx] else []) [] →
  wp p (callPreHook idx) Q.
Proof. unfold callPreHook. simpl. by destruct (PreHook p). Qed.

Lemma wp_callPostHook p idx v (Q : unit → _ → _ → Prop) :
  Q tt (if PostHook p is Some _ then [EvPost idx v] else []) [] →
  wp p (callPostHook idx v) Q.
Proof. unfold callPostHook. simpl. by destruct (PostHook p). Qed.

Lemma wp_callOnStart p (Q : unit → _ → _ → Prop) :
  Q tt (if OnStart p is Some _ then [EvStart] else []) [] →
  wp p callOnStart Q.
Proof. unfold callOnStart. simpl. by destruct (OnStart p). Qed.

Lemma wp_callOnFinish p results (Q : unit → _ → _ → Prop) :
  Q tt (if OnFinish p is Some _ then [EvFinish results] else []) [] →
  wp p (callOnFinish results) Q.
Proof. unfold callOnFinish. simpl. by destruct (OnFinish p). Qed.

Lemma wp_pause p isLast (Q : unit → _ → _ → Prop) :
  Q tt (if bool_decide (Interval p > 0) && negb isLast
        then [EvSleep (Interval p)] else []) [] →
  wp p (pause isLast) Q.
Proof.
  unfold pause. simpl.
  by destruct (bool_decide (Interval p > 0) && negb isLast).
Qed.

Lemma wp_call p f (Q : V → _ → _ → Prop) :
  (∀ σ, Q (f σ).1 [EvTask (f σ).1] []) → wp p (call f) Q.
Proof. intros H σ. apply H. Qed.

Lemma wp_guard {A} p (o : option A) a (Q : A → _ → _ → Prop) :
  o = Some a → Q a [] [] → wp p (guard o) Q.
Proof. by intros ->. Qed.

Lemma len_app {A} (l1 l2 : list A) : len (l1 ++ l2) = len l1 + len l2.
Proof. unfold len. rewrite length_app. lia. Qed.

Lemma len_nonneg {A} (l : list A) : 0 ≤ len l.
Proof. unfold len. lia. Qed.

(** Storing at the first index not yet written. *)
Lemma go_store_next (acc : list V) n v :
  go_store (acc ++ replicate (S n) vnil) (len acc) v
  = Some ((acc ++ [v]) ++ replicate n vnil).
Proof.
  unfold go_store. rewrite bool_decide_eq_true_2.
  - f_equal. unfold len. rewrite Nat2Z.id.
    rewrite insert_app_r_alt, Nat.sub_diag by done. simpl.
    by rewrite <-app_assoc.
  - rewrite len_app. unfold len. simpl. lia.
Qed.

(** The loop invariant of [run]: the results of the tasks already run are
    in place, the slots of the others still hold the zero value. *)
Lemma wp_run_from p l offset (acc : list V) (ts : list (Task V St)) :
  l = len acc + len ts →
  wp p (run_from l offset (len acc) ts (acc ++ replicate (length ts) vnil))
    (λ r t m, m = [] ∧ ∃ vs, r = acc ++ vs ∧ Forall2 returns ts vs ∧
                              t = loop_events p l offset (len acc) vs).
Proof.
  revert acc. induction ts as [|f ts IH]; intros acc Hl.
  - simpl. split; [done|]. exists []. by rewrite app_nil_r.
  - cbn [run_from]. apply wp_bind, wp_callPreHook.
    apply wp_bind, wp_call. intros σ.
    eapply wp_bind, wp_guard; [apply go_store_next|].
    apply wp_bind, wp_callPostHook. apply wp_bind, wp_pause.
    replace (len acc + 1) with (len (acc ++ [(f σ).1]))
      by (rewrite len_app; done).
    eapply wp_mono; [|apply IH].
    + intros r t m (-> & vs & -> & Hvs & ->). split; [done|].
      exists ((f σ).1 :: vs). split_and!.
      * by rewrite <-app_assoc.
      * constructor; [by exists σ|done].
      * simpl. unfold task_events. rewrite len_app.
        change (len [(f σ).1]) with 1. by rewrite <-!app_assoc.
    + rewrite len_app. change (len [(f σ).1]) with 1.
      rewrite Hl. unfold len. simpl. lia.
Qed.

Lemma wp_run p (ts : list (Task V St)) offset :
  wp p (run vnil ts offset)
    (λ r t m, m = [] ∧ Forall2 returns ts r ∧
              t = loop_events p (len ts) offset 0 r).
Proof.
  unfold run. cbv zeta. replace (Z.to_nat (len ts)) with (length ts)
    by (unfold len; lia).
  eapply wp_mono; [|apply (wp_run_from p (len ts) offset [] ts); done].
  intros r t m (-> & vs & -> & ? & ->). done.
Qed.

Lemma wp_goroutine p (part : list (Task V St)) i :
  wp p (goroutine vnil part i)
    (λ _ t m, ∃ vs, Forall2 returns part vs ∧
                    t = loop_events p (len part) i 0 vs ∧
                    m = [{| id := i; res := vs |}]).
Proof.
  unfold goroutine. apply wp_bind. eapply wp_mono; [|apply wp_run].
  intros r t m (-> & ? & ->). simpl. exists r. by rewrite app_nil_r.
Qed.

(** ** Procedures that only read the receiver *)

Lemma read_only_bind {A B} (w : Proc V St A) (k : A → Proc V St B) :
  read_only w → (∀ a, read_only (k a)) → read_only (bind w k).
Proof.
  intros Hw Hk.
  induction w as [a|k' IH|b k' IH|h e k' IH|f k' IH|d k' IH|r k' IH|];
    simpl in *; auto.
Qed.

Lemma read_only_callPreHook idx : read_only (callPreHook (V:=V) (St:=St) idx).
Proof. intros p. simpl. by destruct (PreHook p). Qed.

Lemma read_only_callPostHook idx v : read_only (callPostHook (St:=St) idx v).
Proof. intros p. simpl. by destruct (PostHook p). Qed.

Lemma read_only_callOnStart : read_only (callOnStart (V:=V) (St:=St)).
Proof. intros p. simpl. by destruct (OnStart p). Qed.

Lemma read_only_callOnFinish (results : list V) :
  read_only (callOnFinish (St:=St) results).
Proof. intros p. simpl. by destruct (OnFinish p). Qed.

Lemma read_only_pause isLast : read_only (pause (V:=V) (St:=St) isLast).
Proof.
  intros p. simpl. by destruct (bool_decide (Interval p > 0) && negb isLast).
Qed.

Lemma read_only_run_from l offset i (ts : list (Task V St)) results :
  read_only (run_from l offset i ts results).
Proof.
  revert i results. induction ts as [|f ts IH]; intros i results; [done|].
  cbn [run_from].
  apply read_only_bind; [apply read_only_callPreHook|intros _].
  apply read_only_bind; [done|intros v].
  apply read_only_bind; [by destruct (go_store results i v)|intros r].
  apply read_only_bind; [apply read_only_callPostHook|intros _].
  apply read_only_bind; [apply read_only_pause|intros _]. apply IH.
Qed.

Lemma read_only_goroutine (part : list (Task V St)) i :
  read_only (goroutine vnil part i).
Proof.
  apply read_only_bind; [apply read_only_run_from|done].
Qed.

Lemma exec_read_only {A} (w : Proc V St A) s :
  read_only w → prog (exec w s).1.2 = prog s.
Proof.
  revert s.
  induction w as [a|k IH|b k IH|h e k IH|f k IH|d k IH|r k IH|];
    intros s Hw; simpl in *; try done.
  - by apply IH.
  - by rewrite IH.
  - destruct (f (world s)) as [v σ]. by rewrite IH.
  - by rewrite IH.
  - specialize (IH s Hw). by destruct (exec k s) as [[??]?].
Qed.

Lemma step_read_only {A} (w : Proc V St A) s :
  read_only w → read_only (step w s).1.1 ∧ prog (step w s).1.2 = prog s.
Proof.
  destruct w as [a|k|b k|h e k|f k|d k|r k|]; simpl; try done.
  intros Hk. destruct (f (world s)) as [v σ]. simpl. auto.
Qed.

Lemma run_all_read_only (pool : list (Proc V St unit)) s s' m :
  Forall read_only pool → run_all pool s = Some (s', m) → prog s' = prog s.
Proof.
  intros HF. revert s m. induction HF as [|w pool Hw _ IH]; intros s m Hr.
  - by simplify_eq/=.
  - simpl in Hr. pose proof (exec_read_only w s Hw) as He.
    destruct (exec w s) as [[[[]| |] s1] m1]; try done.
    destruct (run_all pool s1) as [[s2 m2]|] eqn:Hr2; simplify_eq/=.
    by rewrite (IH _ _ Hr2).
Qed.

Lemma interleave_read_only sched (pool : list (Proc V St unit)) s s' m :
  Forall read_only pool → interleave sched pool s = Some (s', m) →
  prog s' = prog s.
Proof.
  revert pool s m. induction sched as [|k sched IH]; intros pool s m HF Hi.
  - by eapply run_all_read_only.
  - simpl in Hi. destruct (pool !! k) as [w|] eqn:Hk; [|by eapply IH].
    pose proof (Forall_lookup_1 _ _ _ _ HF Hk) as Hw.
    destruct (step_read_only w s Hw) as [Hw' Hp].
    assert (match step w s with (w', s1, sent) =>
              '(s'', sent') ← interleave sched (<[k := w']> pool) s1;
              Some (s'', sent ++ sent') end = Some (s', m)) as Hi'.
    { by destruct w. }
    destruct (step w s) as [[w' s1] m1]. simpl in *.
    destruct (interleave sched (<[k:=w']> pool) s1) as [[s2 m2]|] eqn:Hi2;
      simplify_eq/=.
    rewrite <-Hp. eapply IH; [|done]. by apply Forall_insert.
Qed.

(** ** Runner quantity and zones *)

Lemma safeRunnerQuantity_pos n L : 1 ≤ L → 1 ≤ safeRunnerQuantity n L ≤ L.
Proof. runner_cases. Qed.

Lemma span_bounds L w :
  0 ≤ L → 1 ≤ w → 0 ≤ L ÷ w ∧ w * (L ÷ w) ≤ L ∧ L < w * (L ÷ w) + w.
Proof.
  intros HL Hw. rewrite Z.quot_div_nonneg by lia.
  pose proof (Z.mul_div_le L w). pose proof (Z.mod_pos_bound L w).
  pose proof (Z.div_mod L w). pose proof (Z.div_pos L w). lia.
Qed.

Lemma zone_inner L w span i :
  i ≠ w - 1 → zone L w span i = (i * span, i * span + span).
Proof. intros. unfold zone. by rewrite bool_decide_eq_false_2. Qed.

Lemma zone_last L w span : zone L w span (w - 1) = ((w - 1) * span, L).
Proof. unfold zone. by rewrite bool_decide_eq_true_2. Qed.

Lemma zone_in_range L w i :
  0 ≤ L → 1 ≤ w → 0 ≤ i < w →
  0 ≤ (zone L w (L ÷ w) i).1 ∧
  (zone L w (L ÷ w) i).1 ≤ (zone L w (L ÷ w) i).2 ∧
  (zone L w (L ÷ w) i).2 ≤ L.
Proof.
  intros HL Hw Hi. destruct (span_bounds L w HL Hw) as (? & ? & ?).
  destruct (decide (i = w - 1)) as [->|Hne].
  - rewrite zone_last. simpl. nia.
  - rewrite zone_inner by done. simpl. nia.
Qed.

(** The zones before the last one cut a prefix of the sequence, one span
    after the other. *)
Lemma shards_prefix {A} (s : list A) L w span (j : nat) :
  0 ≤ span → Z.of_nat j ≤ w - 1 →
  concat (shard s <$> (zone L w span <$> seqZ 0 (Z.of_nat j)))
  = take (Z.to_nat (Z.of_nat j * span)) s.
Proof.
  intros Hspan. induction j as [|j IH]; intros Hj; [done|].
  rewrite seqZ_S, !fmap_app, concat_app, IH by lia. simpl.
  rewrite zone_inner by lia. unfold shard. simpl. rewrite app_nil_r.
  rewrite take_take_drop. f_equal. nia.
Qed.

(** Partition exactness on the sequence itself: the shards, in order, make
    up the whole sequence. *)
Lemma shards_partition {A} (s : list A) w span :
  1 ≤ w → 0 ≤ span → (w - 1) * span ≤ len s →
  concat (shard s <$> zones (len s) w span) = s.
Proof.
  intros Hw Hspan Hle. unfold zones.
  replace (seqZ 0 w) with (seqZ 0 (Z.of_nat (S (Z.to_nat (w - 1)))))
    by (f_equal; lia).
  rewrite seqZ_S, !fmap_app, concat_app, shards_prefix by lia. simpl.
  replace (0 + Z.of_nat (Z.to_nat (w - 1))) with (w - 1) by lia.
  rewrite zone_last. unfold shard. simpl. rewrite app_nil_r.
  replace (Z.of_nat (Z.to_nat (w - 1))) with (w - 1) by lia.
  rewrite (take_ge (drop _ _)), take_drop; [done|].
  rewrite length_drop. unfold len in *. nia.
Qed.

Lemma mapM_total {A B} (g : A → option B) (h : A → B) (l : list A) :
  (∀ x, x ∈ l → g x = Some (h x)) → mapM g l = Some (h <$> l).
Proof.
  intros H. apply mapM_Some_2, Forall2_fmap_r, Forall_Forall2_diag.
  apply Forall_forall. intros x Hx. simpl. by apply H.
Qed.

Lemma Forall2_concat {A B} (R : A → B → Prop) ls1 ls2 :
  Forall2 (Forall2 R) ls1 ls2 → Forall2 R (concat ls1) (concat ls2).
Proof. induction 1; simpl; [constructor|by apply Forall2_app]. Qed.

(** ** Reordering the tracked results *)

Lemma insert_stable_perm {A} (less : A → A → bool) x l :
  insert_stable less x l ≡ₚ x :: l.
Proof.
  induction l as [|y l IH]; simpl; [done|].
  destruct (less y x); [|done]. by rewrite IH, Permutation_swap.
Qed.

Lemma SliceStable_perm {A} (less : A → A → bool) l : SliceStable less l ≡ₚ l.
Proof.
  induction l as [|x l IH]; simpl; [done|].
  by rewrite insert_stable_perm, IH.
Qed.

Lemma insert_stable_sorted (x : trackedResult V) l :
  StronglySorted (λ a b, id a ≤ id b) l →
  StronglySorted (λ a b, id a ≤ id b) (insert_stable less_id x l).
Proof.
  induction 1 as [|y l Hl IH Hy]; simpl.
  - repeat constructor.
  - unfold less_id at 1. case_bool_decide as Hlt.
    + constructor; [done|]. rewrite insert_stable_perm.
      constructor; [lia|done].
    + constructor; [by constructor|]. constructor; [lia|].
      eapply Forall_impl; [exact Hy|]. simpl. lia.
Qed.

Lemma SliceStable_sorted (l : list (trackedResult V)) :
  StronglySorted (λ a b, id a ≤ id b) (SliceStable less_id l).
Proof.
  induction l as [|x l IH]; simpl; [constructor|].
  by apply insert_stable_sorted.
Qed.

(** Whatever the order of arrival, sorting by runner id restores the order
    of the runners. *)
Lemma SliceStable_restores (arrived ordered : list (trackedResult V)) :
  arrived ≡ₚ ordered →
  StronglySorted (λ a b, id a < id b) ordered →
  SliceStable less_id arrived = ordered.
Proof.
  intros Hperm Hord.
  apply (StronglySorted_unique_strong (λ a b, id a ≤ id b)).
  - intros x1 x2 Hx1 Hx2 H12 H21.
    rewrite SliceStable_perm, Hperm in Hx1. clear Hperm.
    induction Hord as [|y l Hl IH Hy]; [by inv Hx1|].
    rewrite Forall_forall in Hy.
    inv Hx1; inv Hx2; [done| | |by apply IH].
    + match goal with H : _ ∈ l |- _ => apply Hy in H end. lia.
    + match goal with H : _ ∈ l |- _ => apply Hy in H end. lia.
  - apply SliceStable_sorted.
  - clear Hperm. induction Hord as [|y l Hl IH Hy]; constructor; [done|].
    eapply Forall_impl; [exact Hy|]. simpl. lia.
  - by rewrite SliceStable_perm.
Qed.

Lemma foldl_append_res (l : list (trackedResult V)) acc :
  foldl (λ results r, results ++ res r) acc l = acc ++ concat (res <$> l).
Proof.
  revert acc. induction l as [|x l IH]; intros acc; simpl.
  - by rewrite app_nil_r.
  - by rewrite IH, <-app_assoc.
Qed.

Lemma tracked_lower_bound lo n (vss : list (list V)) :
  Forall (λ b, lo ≤ id b) (zip_with mkTracked (seqZ lo n) vss).
Proof.
  revert lo n. induction vss as [|vs vss IH]; intros lo n.
  - by rewrite zip_with_nil_r.
  - destruct (decide (0 < n)) as [Hn|Hn].
    + rewrite seqZ_cons by done. simpl. constructor; [simpl; lia|].
      eapply Forall_impl; [apply IH|]. simpl. lia.
    + by rewrite seqZ_nil by lia.
Qed.

Lemma tracked_sorted lo n (vss : list (list V)) :
  StronglySorted (λ a b, id a < id b) (zip_with mkTracked (seqZ lo n) vss).
Proof.
  revert lo n. induction vss as [|vs vss IH]; intros lo n.
  - rewrite zip_with_nil_r. constructor.
  - destruct (decide (0 < n)) as [Hn|Hn].
    + rewrite seqZ_cons by done. simpl. constructor; [apply IH|].
      eapply Forall_impl; [apply tracked_lower_bound|]. simpl. lia.
    + rewrite seqZ_nil by lia. constructor.
Qed.

Lemma res_tracked (ids : list Z) (vss : list (list V)) :
  length ids = length vss → res <$> zip_with mkTracked ids vss = vss.
Proof.
  revert vss. induction ids as [|i ids IH]; intros [|vs vss] Hlen;
    simplify_eq/=; [done|]. by rewrite IH.
Qed.

(** ** The concurrent body *)

Lemma dispatch_spec (ts : list (Task V St)) w :
  1 ≤ w →
  dispatch vnil ts (len ts) w (len ts ÷ w)
  = Some ((λ i, goroutine vnil (shard ts (zone (len ts) w (len ts ÷ w) i)) i)
          <$> seqZ 0 w).
Proof.
  intros Hw. apply mapM_total. intros i Hi%elem_of_seqZ.
  pose proof (zone_in_range (len ts) w i (len_nonneg ts) Hw) as Hz.
  unfold shard. destruct (zone (len ts) w (len ts ÷ w) i) as [lo hi].
  simpl in *. unfold go_slice. rewrite bool_decide_eq_true_2 by lia. done.
Qed.

(** From the postconditions of the goroutines to the results per shard. *)
Lemma collect_results p (ids : list Z) (parts : Z → list (Task V St))
    (tms : list (list (Event V) * list (trackedResult V))) :
  Forall2 (λ i tm, ∃ vs, Forall2 returns (parts i) vs ∧
                         tm.1 = loop_events p (len (parts i)) i 0 vs ∧
                         tm.2 = [{| id := i; res := vs |}]) ids tms →
  ∃ vss, Forall2 (Forall2 returns) (parts <$> ids) vss ∧
         concat tms.*1
         = concat (zip_with (λ i vs, loop_events p (len vs) i 0 vs) ids vss) ∧
         concat tms.*2 = zip_with mkTracked ids vss.
Proof.
  induction 1 as [|i [t m] ids tms (vs & Hvs & Ht & Hm) _ (vss & ? & Hts & Hms)].
  - by exists [].
  - exists (vs :: vss). csimpl in *. subst t m. split_and!.
    + by constructor.
    + rewrite Hts. unfold len. by rewrite (Forall2_length _ _ _ Hvs).
    + by rewrite Hms.
Qed.

(** With at least one runner the concurrent body returns, under every
    schedule: it yields the results of the shards in the order of the
    runners, and the events observed are those of the core loop of each
    runner [i], run with offset [i], in some interleaving. *)
Lemma RunConc_body_returns n sched s :
  1 ≤ safeRunnerQuantity n (len (Tasks (prog s))) →
  ∃ s' T vss,
    RunConc_body vnil n sched s = (Returned (concat vss), s') ∧
    prog s' = prog s ∧ trace s' = trace s ++ T ∧
    Forall2 (Forall2 returns)
      (shard (Tasks (prog s)) <$>
         zones (len (Tasks (prog s)))
               (safeRunnerQuantity n (len (Tasks (prog s))))
               (len (Tasks (prog s)) ÷
                  safeRunnerQuantity n (len (Tasks (prog s))))) vss ∧
    T ≡ₚ concat (zip_with (λ i vs, loop_events (prog s) (len vs) i 0 vs)
                   (seqZ 0 (safeRunnerQuantity n (len (Tasks (prog s))))) vss).
Proof.
  unfold RunConc_body. cbv zeta.
  set (ts := Tasks (prog s)). set (L := len ts).
  set (w := safeRunnerQuantity n L). intros Hw.
  unfold go_div. rewrite bool_decide_eq_false_2 by lia.
  subst L. rewrite dispatch_spec by done.
  set (parts := λ i, shard ts (zone (len ts) w (len ts ÷ w) i)).
  destruct (interleave_wp (prog s) sched
              ((λ i, goroutine vnil (parts i) i) <$> seqZ 0 w)
              ((λ i t m, ∃ vs, Forall2 returns (parts i) vs ∧
                               t = loop_events (prog s) (len (parts i)) i 0 vs ∧
                               m = [{| id := i; res := vs |}]) <$> seqZ 0 w)
              s eq_refl) as (s' & T & M & tms & Hi & Hp & Ht & Hmet & HT & HM).
  { apply Forall2_fmap_2, Forall_Forall2_diag, Forall_forall.
    intros i _. apply wp_goroutine. }
  cbv beta delta [parts] in Hi. rewrite Hi. clear Hi.
  apply Forall2_fmap_l in Hmet.
  destruct (collect_results (prog s) (seqZ 0 w) parts tms Hmet)
    as (vss & Hvss & Hts & Hms).
  assert (length (seqZ 0 w) = length vss) as Hlen.
  { rewrite <-(Forall2_length _ _ _ Hvss). by rewrite length_fmap. }
  rewrite Hms in HM. rewrite Hts in HT.
  assert (length M = Z.to_nat w) as HlenM.
  { rewrite HM, length_zip_with, <-Hlen, length_seqZ. lia. }
  unfold gather. rewrite bool_decide_eq_true_2 by (unfold len; lia).
  rewrite take_ge by lia.
  rewrite (SliceStable_restores M _ HM (tracked_sorted 0 w vss)).
  rewrite foldl_append_res, res_tracked by done. simpl.
  exists s', T, vss. split_and!; try done.
  unfold zones. by rewrite <-list_fmap_compose.
Qed.

(** ** Counting observations *)

Global Instance count_perm (φ : Event V → bool) :
  Proper ((≡ₚ) ==> (=)) (count φ).
Proof. intros t1 t2 Ht. unfold count. by rewrite Ht. Qed.

Lemma count_app (φ : Event V → bool) t1 t2 :
  count φ (t1 ++ t2) = (count φ t1 + count φ t2)%nat.
Proof. unfold count. by rewrite filter_app, length_app. Qed.

Lemma count_cons (φ : Event V → bool) e t :
  count φ (e :: t) = ((if φ e then 1 else 0) + count φ t)%nat.
Proof.
  unfold count. rewrite filter_cons. by destruct (φ e).
Qed.

Lemma count_nil (φ : Event V → bool) : count φ [] = 0%nat.
Proof. done. Qed.

Lemma count_task_events (φ : Event V → bool) p isLast idx v :
  count φ (task_events p isLast idx v) =
  ((if PreHook p is Some _ then if φ (EvPre idx) then 1 else 0 else 0) +
   (if φ (EvTask v) then 1 else 0) +
   (if PostHook p is Some _ then if φ (EvPost idx v) then 1 else 0 else 0) +
   (if bool_decide (Interval p > 0)%Z && negb isLast
    then if φ (EvSleep (Interval p)) then 1 else 0 else 0))%nat.
Proof.
  unfold task_events. rewrite !count_app.
  destruct (PreHook p), (PostHook p),
    (bool_decide (Interval p > 0) && negb isLast);
    rewrite ?count_cons, ?count_nil; lia.
Qed.

(** Counting one kind of event through the loop: by induction on the
    values, one block of [task_events] at a time. *)
Ltac count_loop vs :=
  let i := fresh "i" in
  let IH := fresh "IH" in
  intros i; revert i; induction vs as [|? vs IH]; intros i; simpl;
  [ rewrite ?count_nil; repeat case_match; done
  | rewrite count_app, count_task_events, IH; simpl;
    repeat case_match; lia ].

Lemma count_pre_loop p l offset (vs : list V) :
  ∀ i, count is_pre (loop_events p l offset i vs)
       = if PreHook p is Some _ then length vs else 0%nat.
Proof. count_loop vs. Qed.

Lemma count_post_loop p l offset (vs : list V) :
  ∀ i, count is_post (loop_events p l offset i vs)
       = if PostHook p is Some _ then length vs else 0%nat.
Proof. count_loop vs. Qed.

Lemma count_start_loop p l offset (vs : list V) :
  ∀ i, count is_start (loop_events p l offset i vs) = 0%nat.
Proof. count_loop vs. Qed.

Lemma count_finish_loop p l offset (vs : list V) :
  ∀ i, count is_finish (loop_events p l offset i vs) = 0%nat.
Proof. count_loop vs. Qed.

(** Pauses of the core loop over a whole sub-sequence: one after each task
    but the last. *)
Lemma count_sleep_loop p l offset i (vs : list V) :
  l = i + len vs →
  count is_sleep (loop_events p l offset i vs)
  = if bool_decide (Interval p > 0) then (length vs - 1)%nat else 0%nat.
Proof.
  revert i. induction vs as [|v vs IH]; intros i Hl; simpl.
  - by case_bool_decide.
  - rewrite count_app, count_task_events, IH
      by (unfold len in *; simpl in *; lia). simpl.
    unfold len in Hl. simpl in Hl.
    destruct (PreHook p), (PostHook p); repeat case_bool_decide; simpl;
      destruct vs; simpl in *; lia.
Qed.

(** The tasks' values appear in the loop's observations in task order. *)
Lemma task_values_loop p l offset i (vs : list V) :
  filter (λ e, is_task e) (loop_events p l offset i vs) = EvTask <$> vs.
Proof.
  revert i. induction vs as [|v vs IH]; intros i; csimpl; [done|].
  unfold task_events. rewrite !filter_app, IH.
  destruct (PreHook p), (PostHook p), (_ && _); done.
Qed.

Lemma sleeps_loop p l offset i (vs : list V) e :
  e ∈ loop_events p l offset i vs → is_sleep e →
  e = EvSleep (Interval p) ∧ Interval p > 0.
Proof.
  revert i. induction vs as [|v vs IH]; intros i; simpl; [by inversion 1|].
  intros [He|He]%elem_of_app Hs; [|by eapply IH].
  unfold task_events in He. rewrite !elem_of_app in He.
  destruct He as [He|[He|[He|He]]].
  - destruct (PreHook p); [|by apply elem_of_nil in He].
    by apply list_elem_of_singleton in He as ->.
  - by apply list_elem_of_singleton in He as ->.
  - destruct (PostHook p); [|by apply elem_of_nil in He].
    by apply list_elem_of_singleton in He as ->.
  - destruct (bool_decide (Interval p > 0)) eqn:Hint; simpl in He;
      [|by apply elem_of_nil in He].
    apply bool_decide_eq_true_1 in Hint.
    destruct (negb _); [|by apply elem_of_nil in He].
    by apply list_elem_of_singleton in He as ->.
Qed.

Lemma last_loop_not_sleep p offset (vs : list V) d :
  last (loop_events p (len vs) offset 0 vs) ≠ Some (EvSleep d).
Proof.
  assert (∀ l i, l = i + len vs →
            last (loop_events p l offset i vs) ≠ Some (EvSleep d)) as H;
    [|by apply H].
  induction vs as [|v vs IH]; intros l i Hl; simpl; [done|].
  unfold len in Hl. simpl in Hl.
  destruct vs as [|v' vs].
  - simpl in *. rewrite app_nil_r. unfold task_events.
    rewrite (bool_decide_eq_true_2 (i = l - 1)) by lia. simpl.
    rewrite andb_false_r, app_nil_r.
    destruct (PreHook p), (PostHook p); done.
  - rewrite last_app.
    assert (l = i + 1 + len (v' :: vs)) as Hl'
      by (unfold len; simpl in *; lia).
    generalize (IH l (i + 1) Hl').
    destruct (last (loop_events p l offset (i + 1) (v' :: vs))) eqn:Hlast.
    + done.
    + intros _. exfalso. simpl in Hlast. unfold task_events in Hlast.
      apply last_None, app_eq_nil in Hlast as [Hb _].
      by apply app_eq_nil in Hb as [_ Hb].
Qed.

(** ** The two entry points *)

Lemma exec_callOnStart s :
  ∃ s', exec callOnStart s = (Returned tt, s', []) ∧ prog s' = prog s ∧
        trace s' = trace s ++ start_events (prog s).
Proof.
  unfold callOnStart, start_events. simpl.
  destruct (OnStart (prog s)); simpl; eexists; split_and!; try done.
  by rewrite app_nil_r.
Qed.

Lemma exec_callOnFinish (results : list V) s :
  ∃ s', exec (callOnFinish results) s = (Returned tt, s', []) ∧
        prog s' = prog s ∧
        trace s' = trace s ++ finish_events (prog s) results.
Proof.
  unfold callOnFinish, finish_events. simpl.
  destruct (OnFinish (prog s)); simpl; eexists; split_and!; try done.
  by rewrite app_nil_r.
Qed.

Lemma exec_run (ts : list (Task V St)) offset s :
  ∃ vs s', exec (run vnil ts offset) s = (Returned vs, s', []) ∧
           prog s' = prog s ∧ Forall2 returns ts vs ∧
           trace s' = trace s ++ loop_events (prog s) (len ts) offset 0 vs.
Proof.
  destruct (wp_exec (prog s) _ _ s eq_refl (wp_run (prog s) ts offset))
    as (vs & s' & t & m & He & ? & _ & ? & -> & ? & ->).
  by exists vs, s'.
Qed.

(** [Run] always returns; its observations are the on-start hook, the core
    loop over all tasks with offset 0, and the on-finish hook on the
    results returned. *)
Lemma Run_spec s :
  ∃ vs s', Run vnil s = (Returned vs, s') ∧ prog s' = prog s ∧
           Forall2 returns (Tasks (prog s)) vs ∧
           trace s' = trace s ++ start_events (prog s) ++
                      loop_events (prog s) (len (Tasks (prog s))) 0 0 vs ++
                      finish_events (prog s) vs.
Proof.
  unfold Run.
  destruct (exec_callOnStart s) as (s1 & -> & Hp1 & Ht1).
  destruct (exec_run (Tasks (prog s1)) 0 s1) as (vs & s2 & -> & Hp2 & Hvs & Ht2).
  cbn [named_result]. destruct (exec_callOnFinish vs s2) as (s3 & -> & Hp3 & Ht3).
  exists vs, s3. rewrite Hp1 in *. rewrite Hp2 in *.
  split_and!; try done.
  by rewrite Ht3, Ht2, Ht1, <-!app_assoc.
Qed.

Lemma safeRunnerQuantity_zero n L :
  0 ≤ L → safeRunnerQuantity n L = 0 ↔ L = 0 ∧ 1 ≤ n.
Proof. runner_cases. Qed.

(** Without any runner the span is a division by zero: the body panics
    and the deferred on-finish hook runs on the nil result. *)
Lemma RunConc_panics n sched s :
  safeRunnerQuantity n (len (Tasks (prog s))) = 0 →
  ∃ s', RunConc vnil n sched s = (Panicked, s') ∧ prog s' = prog s ∧
        trace s' = trace s ++ start_events (prog s) ++
                   finish_events (prog s) [].
Proof.
  intros Hw. unfold RunConc.
  destruct (exec_callOnStart s) as (s1 & -> & Hp1 & Ht1).
  assert (RunConc_body vnil n sched s1 = (Panicked, s1)) as ->.
  { unfold RunConc_body. cbv zeta. rewrite Hp1, Hw. unfold go_div.
    by rewrite bool_decide_eq_true_2. }
  cbn [named_result].
  destruct (exec_callOnFinish [] s1) as (s2 & -> & Hp2 & Ht2).
  exists s2. rewrite Hp1 in *. split_and!; try done.
  by rewrite Ht2, Ht1, <-!app_assoc.
Qed.

(** With at least one runner [RunConc] returns, under every schedule. *)
Lemma RunConc_returns n sched s :
  1 ≤ safeRunnerQuantity n (len (Tasks (prog s))) →
  ∃ vss T s',
    RunConc vnil n sched s = (Returned (concat vss), s') ∧
    prog s' = prog s ∧
    Forall2 (Forall2 returns)
      (shard (Tasks (prog s)) <$>
         zones (len (Tasks (prog s)))
               (safeRunnerQuantity n (len (Tasks (prog s))))
               (len (Tasks (prog s)) ÷
                  safeRunnerQuantity n (len (Tasks (prog s))))) vss ∧
    Forall2 returns (Tasks (prog s)) (concat vss) ∧
    trace s' = trace s ++ start_events (prog s) ++ T ++
               finish_events (prog s) (concat vss) ∧
    T ≡ₚ concat (zip_with (λ i vs, loop_events (prog s) (len vs) i 0 vs)
                   (seqZ 0 (safeRunnerQuantity n (len (Tasks (prog s))))) vss).
Proof.
  intros Hw. unfold RunConc.
  destruct (exec_callOnStart s) as (s1 & -> & Hp1 & Ht1).
  destruct (RunConc_body_returns n sched s1)
    as (s2 & T & vss & -> & Hp2 & Ht2 & Hvss & HT); [by rewrite Hp1|].
  cbn [named_result].
  destruct (exec_callOnFinish (concat vss) s2) as (s3 & -> & Hp3 & Ht3).
  rewrite Hp1 in *. rewrite Hp2 in *.
  exists vss, T, s3. split_and!; try done.
  - apply Forall2_concat in Hvss. revert Hvss.
    destruct (span_bounds _ _ (len_nonneg (Tasks (prog s))) Hw) as (? & ? & ?).
    by rewrite shards_partition by (done || nia).
  - by rewrite Ht3, Ht2, Ht1, <-!app_assoc.
Qed.

(** ** Auxiliary facts for the statements below *)

Lemma pure_returns (ts : list (Task V St)) (vals vs : list V) :
  Forall2 pure_task ts vals → Forall2 returns ts vs → vs = vals.
Proof.
  intros Hpure. revert vs.
  induction Hpure as [|f v ts vals Hf _ IH]; intros vs Hvs; inv Hvs; [done|].
  f_equal; [|by apply IH].
  match goal with H : returns f _ |- _ => destruct H as [σ <-] end.
  by rewrite Hf.
Qed.

Lemma loop_events_imap p l offset i0 (vs : list V) :
  loop_events p l offset i0 vs
  = concat (imap (λ (i : nat) v,
               task_events p (bool_decide (i0 + Z.of_nat i = l - 1))
                           (i0 + Z.of_nat i + offset) v) vs).
Proof.
  revert i0. induction vs as [|v vs IH]; intros i0; [done|].
  rewrite imap_cons. simpl. rewrite Z.add_0_r, IH. do 2 f_equal.
  apply imap_ext. intros i v' _. simpl.
  by replace (i0 + 1 + Z.of_nat i) with (i0 + Z.of_nat (S i)) by lia.
Qed.

Lemma count_runners (φ : Event V → bool) p (k : nat) (ids : list Z)
    (vss : list (list V)) :
  length ids = length vss →
  (∀ l offset i vs,
     count φ (loop_events p l offset i vs) = (k * length vs)%nat) →
  count φ (concat (zip_with (λ i vs, loop_events p (len vs) i 0 vs) ids vss))
  = (k * length (concat vss))%nat.
Proof.
  intros Hlen Hk. revert vss Hlen.
  induction ids as [|i ids IH]; intros [|vs vss] Hlen; simplify_eq/=.
  - rewrite count_nil. lia.
  - rewrite count_app, Hk, IH, length_app by done. lia.
Qed.

Lemma len_seqZ L : 0 ≤ L → len (seqZ 0 L) = L.
Proof. intros. unfold len. rewrite length_seqZ. lia. Qed.

Lemma shard_seqZ L lo hi :
  0 ≤ lo → lo ≤ hi → hi ≤ L → shard (seqZ 0 L) (lo, hi) = seqZ lo (hi - lo).
Proof.
  intros. unfold shard. simpl.
  replace L with (lo + ((hi - lo) + (L - hi))) by lia.
  rewrite !seqZ_app by lia. simpl.
  rewrite drop_app_length' by (rewrite length_seqZ; lia).
  by rewrite take_app_length' by (rewrite length_seqZ; lia).
Qed.

(** What the concurrent body does with a single runner. *)
Lemma RunConc_body_one sched s :
  Tasks (prog s) ≠ [] →
  RunConc_body vnil 1 sched s
  = ((exec (run vnil (Tasks (prog s)) 0) s).1.1,
     (exec (run vnil (Tasks (prog s)) 0) s).1.2).
Proof.
  intros Hne. unfold RunConc_body. cbv zeta.
  set (ts := Tasks (prog s)).
  assert (1 ≤ len ts) as HL.
  { unfold len. subst ts. destruct (Tasks (prog s)); [done|simpl; lia]. }
  assert (safeRunnerQuantity 1 (len ts) = 1) as ->.
  { runner_cases. }
  unfold go_div. rewrite bool_decide_eq_false_2 by done.
  rewrite dispatch_spec by done.
  change (seqZ 0 1) with [0]. csimpl. rewrite Z.quot_1_r.
  change 0 with (1 - 1) at 1. rewrite zone_last. unfold shard. simpl.
  rewrite drop_0, take_ge by (unfold len; lia).
  rewrite interleave_single. unfold goroutine. rewrite bind_unfold, exec_bind.
  destruct (exec_run ts 0 s) as (vs & s' & -> & _ & _ & _). simpl.
  done.
Qed.

(** ** The receiver is only read *)

Lemma dispatch_read_only (ts : list (Task V St)) L w span pool :
  dispatch vnil ts L w span = Some pool → Forall read_only pool.
Proof.
  intros Hd%mapM_Some_1. induction Hd as [|i g ids pool Hg _ IH]; [done|].
  constructor; [|done].
  destruct (zone L w span i) as [lo hi].
  destruct (go_slice ts lo hi) as [part|]; simplify_eq/=.
  apply read_only_goroutine.
Qed.

Lemma RunConc_body_frame n sched s :
  prog (RunConc_body vnil n sched s).2 = prog s.
Proof.
  unfold RunConc_body. cbv zeta.
  destruct (go_div _ _) as [span|]; [|done].
  destruct (dispatch _ _ _ _ _) as [pool|] eqn:Hd; [|done].
  apply dispatch_read_only in Hd.
  destruct (interleave sched pool s) as [[s' m]|] eqn:Hi; [|done].
  apply (interleave_read_only _ _ _ _ _ Hd) in Hi.
  by destruct (gather _ m).
Qed.

Lemma Run_frame s : prog (Run vnil s).2 = prog s.
Proof.
  unfold Run.
  pose proof (exec_read_only callOnStart s read_only_callOnStart) as H1.
  destruct (exec callOnStart s) as [[o1 s1] m1]. simpl in H1.
  pose proof (exec_read_only (run vnil (Tasks (prog s1)) 0) s1
                (read_only_run_from _ _ _ _ _)) as H2.
  destruct (exec (run vnil (Tasks (prog s1)) 0) s1) as [[o2 s2] m2].
  simpl in H2.
  pose proof (exec_read_only (callOnFinish (named_result o2)) s2
                (read_only_callOnFinish _)) as H3.
  destruct (exec (callOnFinish (named_result o2)) s2) as [[o3 s3] m3].
  simpl in *. congruence.
Qed.

Lemma RunConc_frame n sched s : prog (RunConc vnil n sched s).2 = prog s.
Proof.
  unfold RunConc.
  pose proof (exec_read_only callOnStart s read_only_callOnStart) as H1.
  destruct (exec callOnStart s) as [[o1 s1] m1]. simpl in H1.
  pose proof (RunConc_body_frame n sched s1) as H2.
  destruct (RunConc_body vnil n sched s1) as [o2 s2]. simpl in H2.
  pose proof (exec_read_only (callOnFinish (named_result o2)) s2
                (read_only_callOnFinish _)) as H3.
  destruct o2 as [r| |];
    [destruct (exec (callOnFinish (named_result (Returned r))) s2)
       as [[o3 s3] m3]
    |destruct (exec (callOnFinish (named_result (@Panicked (list V)))) s2)
       as [[o3 s3] m3]
    |]; simpl in *; congruence.
Qed.

(** [concMode] is the one procedure of the package that writes. *)
Lemma concMode_writes activate s :
  isConc (prog (exec (concMode (V:=V) (St:=St) activate) s).1.2) = activate.
Proof. by destruct activate. Qed.

(** Without tasks and with [n <= 0] there is one runner, with an empty
    zone, and [RunConc] returns the empty sequence. *)
Lemma RunConc_no_task_returns n sched s :
  Tasks (prog s) = [] → n ≤ 0 → (RunConc vnil n sched s).1 = Returned [].
Proof.
  intros Hnil Hn.
  destruct (RunConc_returns n sched s) as (vss & T & s' & -> & _ & _ & Hvs & _).
  { rewrite Hnil. change (len []) with 0. runner_cases. }
  rewrite Hnil in Hvs. by inv Hvs.
Qed.

End theory.

(** * The documented examples, evaluated *)

(** The doc comment of [RunConc]: "for 10 Task and 3 runners:
    run0[0:3] run1[3:6] run2[6:10]". *)
Example zones_10_3 :
  zones 10 (safeRunnerQuantity 3 10) (10 ÷ safeRunnerQuantity 3 10)
  = [(0, 3); (3, 6); (6, 10)].
Proof. reflexivity. Qed.

(** The README's run of [example]: three tasks, the four hooks and an
    interval (here 1000). *)
Example Run_example :
  trace (Run "" (initial (hooked 3 1000) 0%nat)).2
  = [EvStart;
     EvPre 0; EvTask "task0"; EvPost 0 "task0"; EvSleep 1000;
     EvPre 1; EvTask "task1"; EvPost 1 "task1"; EvSleep 1000;
     EvPre 2; EvTask "task2"; EvPost 2 "task2";
     EvFinish ["task0"; "task1"; "task2"]].
Proof. vm_compute. reflexivity. Qed.

(** Five tasks among three runners, the last runner moving first: the
    results come back in task order. *)
Example RunConc_5_3 :
  (RunConc "" 3 [2; 2; 2; 1; 0; 2; 1; 0]%nat (initial (bare 5) tt)).1
  = Returned ["task0"; "task1"; "task2"; "task3"; "task4"].
Proof. vm_compute. reflexivity. Qed.

(** Four tasks among two runners with the hooks set, the runners taking
    turns: the second runner reports its tasks with indices 1 and 2. *)
Example RunConc_4_2_trace :
  trace (RunConc "" 2 [0; 0; 1; 1; 0; 0; 1; 1; 0; 0; 1; 1]%nat
           (initial (hooked 4 0) 0%nat)).2
  = [EvStart;
     EvPre 0; EvPre 1; EvTask "task0"; EvTask "task2";
     EvPost 0 "task0"; EvPost 1 "task2";
     EvPre 1; EvTask "task1"; EvPost 1 "task1";
     EvPre 2; EvTask "task3"; EvPost 2 "task3";
     EvFinish ["task0"; "task1"; "task2"; "task3"]].
Proof. vm_compute. reflexivity. Qed.

(** * The claims of the specification *)

(** C5.  Worker-count normalisation: for every requested count [n] and task
    count [L], the effective count is [L] if [n > L], otherwise [1] if
    [n < 1], otherwise [n]; for [L >= 1] this is [n] clamped to [1..L],
    requesting [n > L] yields exactly [L] zones of one task each, and
    requesting [n <= 0] yields the single zone [0:L]. *)
Theorem safeRunnerQuantity_clamp (n L : Z) :
  (n > L → safeRunnerQuantity n L = L) ∧
  (n ≤ L → n < 1 → safeRunnerQuantity n L = 1) ∧
  (n ≤ L → 1 ≤ n → safeRunnerQuantity n L = n) ∧
  (1 ≤ L →
     safeRunnerQuantity n L = Z.min (Z.max n 1) L ∧
     (n > L →
        zones L (safeRunnerQuantity n L) (L ÷ safeRunnerQuantity n L)
        = (λ i, (i, i + 1)) <$> seqZ 0 L) ∧
     (n ≤ 0 →
        zones L (safeRunnerQuantity n L) (L ÷ safeRunnerQuantity n L)
        = [(0, L)])).
Proof.
  split_and!.
  - intros. unfold safeRunnerQuantity. by rewrite bool_decide_eq_true_2.
  - intros. unfold safeRunnerQuantity.
    rewrite bool_decide_eq_false_2 by lia. by rewrite bool_decide_eq_true_2.
  - intros. unfold safeRunnerQuantity.
    rewrite bool_decide_eq_false_2 by lia. by rewrite bool_decide_eq_false_2 by lia.
  - intros HL. split_and!.
    + runner_cases.
    + intros Hn. unfold safeRunnerQuantity.
      rewrite bool_decide_eq_true_2 by done.
      rewrite Z.quot_same by lia. unfold zones.
      apply list_fmap_ext. intros k i [-> Hi]%lookup_seqZ.
      unfold zone. case_bool_decide; f_equal; lia.
    + intros Hn. unfold safeRunnerQuantity.
      rewrite bool_decide_eq_false_2 by lia.
      rewrite bool_decide_eq_true_2 by lia.
      rewrite Z.quot_1_r. unfold zones. change (seqZ 0 1) with [0].
      csimpl. change 0 with (1 - 1) at 1. by rewrite zone_last.
Qed.

(** C4.  Partitioning: for [L >= 1] tasks and the effective worker count
    [w] with [span = L / w], zone [i] is [i*span, i*span + span) for
    [i < w - 1] and the last zone is [(w-1)*span, L); the zones are
    contiguous from [0], none is empty, their index ranges in order make up
    exactly [0, L), and the last zone holds the [L mod w] tasks in excess;
    5 tasks and 3 workers give [0:1], [1:2], [2:5]. *)
Theorem zones_partition (n L : Z) :
  1 ≤ L →
  let w := safeRunnerQuantity n L in
  let span := L ÷ w in
  1 ≤ w ≤ L ∧
  length (zones L w span) = Z.to_nat w ∧
  (∀ i, 0 ≤ i < w - 1 → zone L w span i = (i * span, i * span + span)) ∧
  zone L w span (w - 1) = ((w - 1) * span, L) ∧
  (zone L w span 0).1 = 0 ∧
  (∀ i, 0 ≤ i < w - 1 → (zone L w span i).2 = (zone L w span (i + 1)).1) ∧
  (∀ i, 0 ≤ i < w → (zone L w span i).1 < (zone L w span i).2) ∧
  concat ((λ z, seqZ z.1 (z.2 - z.1)) <$> zones L w span) = seqZ 0 L ∧
  L - (w - 1) * span = span + L `mod` w ∧
  zones 5 (safeRunnerQuantity 3 5) (5 ÷ safeRunnerQuantity 3 5)
  = [(0, 1); (1, 2); (2, 5)].
Proof.
  intros HL w span.
  pose proof (safeRunnerQuantity_pos n L HL) as Hw. fold w in Hw.
  destruct (span_bounds L w) as (Hs0 & Hs1 & Hs2); [lia..|]. fold span in Hs0, Hs1, Hs2.
  assert (1 ≤ span) as Hs by nia.
  split_and!; try done.
  - lia.
  - lia.
  - unfold zones. rewrite length_fmap, length_seqZ. lia.
  - intros i Hi. apply zone_inner. lia.
  - apply zone_last.
  - intros i Hi. rewrite zone_inner by lia. unfold zone.
    case_bool_decide; simpl; lia.
  - intros i Hi. unfold zone. case_bool_decide; simpl; nia.
  - transitivity (concat (shard (seqZ 0 L) <$> zones (len (seqZ 0 L)) w span));
      [|apply shards_partition; rewrite ?len_seqZ by lia; [lia|lia|nia]].
    rewrite len_seqZ by lia. f_equal. unfold zones. rewrite <-!list_fmap_compose.
    apply list_fmap_ext. intros k i [-> Hi]%lookup_seqZ. unfold compose.
    pose proof (zone_in_range L w (0 + Z.of_nat k)) as Hz. fold span in Hz.
    destruct (zone L w span (0 + Z.of_nat k)) as [lo hi]. simpl in *.
    rewrite shard_seqZ; [done|lia..].
  - subst span. rewrite Z.quot_div_nonneg by lia.
    pose proof (Z.div_mod L w). lia.
Qed.

Lemma zones_partition_witness :
  concat ((λ z, seqZ z.1 (z.2 - z.1)) <$>
            zones 10 (safeRunnerQuantity 3 10) (10 ÷ safeRunnerQuantity 3 10))
  = seqZ 0 10.
Proof.
  assert (1 ≤ 10) as H by lia.
  exact (proj1 (proj2 (proj2 (proj2 (proj2 (proj2 (proj2 (proj2
           (zones_partition 3 10 H))))))))).
Defined.

(** C6.  [Run] returns, for every program and every state of the caller, a
    result sequence with one element per task, the [i]-th being the value
    the [i]-th task returned in this run (for pure tasks, the value of the
    task); with no task the result is empty and neither a per-task hook nor
    a pause is observed; five tasks returning ["task0"] to ["task4"] yield
    exactly these five strings in order. *)
Theorem Run_results :
  (∀ (V St : Type) (vnil : V) (s : State V St),
     ∃ vs s',
       Run vnil s = (Returned vs, s') ∧
       length vs = length (Tasks (prog s)) ∧
       Forall2 returns (Tasks (prog s)) vs ∧
       filter (λ e, is_task e) (drop (length (trace s)) (trace s'))
       = EvTask <$> vs ∧
       (∀ vals, Forall2 pure_task (Tasks (prog s)) vals → vs = vals) ∧
       (Tasks (prog s) = [] →
          vs = [] ∧
          trace s' = trace s ++ start_events (prog s) ++
                     finish_events (prog s) [])) ∧
  (Run "" (initial (bare 5) tt)).1
  = Returned ["task0"; "task1"; "task2"; "task3"; "task4"].
Proof.
  split; [|by vm_compute].
  intros V St vnil s.
  destruct (Run_spec vnil s) as (vs & s' & HR & Hp & Hvs & Ht).
  exists vs, s'. split_and!; try done.
  - symmetry. by eapply Forall2_length.
  - rewrite Ht, drop_app_length, !filter_app, task_values_loop.
    unfold start_events, finish_events.
    destruct (OnStart (prog s)), (OnFinish (prog s)); simpl;
      by rewrite ?app_nil_r.
  - intros vals Hpure. by eapply pure_returns.
  - intros Hnil. rewrite Hnil in Hvs. inv Hvs. by rewrite Ht.
Qed.

(** C8.  Pacing of the core loop: with a positive interval, the loop over a
    sub-sequence observes, for each task in order, the pre-task hook (if
    set), the task, the post-task hook (if set) and then, unless the task
    is the last one of the sub-sequence, one pause of exactly the interval;
    so one pause separates each task from the next, [L - 1] pauses occur
    for [L >= 1] tasks (none for [L = 0]), and none follows the last
    task. *)
Theorem core_loop_pacing {V St : Type} (vnil : V) (s : State V St)
    (ts : list (Task V St)) (offset : Z) :
  Interval (prog s) > 0 →
  ∃ vs s',
    exec (run vnil ts offset) s = (Returned vs, s', []) ∧
    length vs = length ts ∧
    trace s' = trace s ++
      concat (imap (λ (i : nat) v,
                (if PreHook (prog s) is Some _
                 then [EvPre (Z.of_nat i + offset)] else []) ++
                [EvTask v] ++
                (if PostHook (prog s) is Some _
                 then [EvPost (Z.of_nat i + offset) v] else []) ++
                (if bool_decide (i < length ts - 1)%nat
                 then [EvSleep (Interval (prog s))] else [])) vs) ∧
    count is_sleep (drop (length (trace s)) (trace s')) = (length ts - 1)%nat ∧
    (∀ e, e ∈ drop (length (trace s)) (trace s') → is_sleep e →
          e = EvSleep (Interval (prog s))) ∧
    (∀ d, last (drop (length (trace s)) (trace s')) ≠ Some (EvSleep d)).
Proof.
  intros Hint.
  destruct (exec_run vnil ts offset s) as (vs & s' & He & Hp & Hvs & Ht).
  pose proof (Forall2_length _ _ _ Hvs) as Hlen.
  assert (len ts = len vs) as HL by (unfold len; lia).
  exists vs, s'. rewrite Ht, drop_app_length. split_and!; try done.
  - f_equal. rewrite loop_events_imap. f_equal. apply imap_ext.
    intros i v Hi%lookup_lt_Some. unfold task_events. simpl.
    rewrite Z.add_0_l, (bool_decide_eq_true_2 (Interval (prog s) > 0)) by done.
    simpl. do 3 f_equal. unfold len.
    repeat case_bool_decide; simpl; try done; lia.
  - rewrite count_sleep_loop by lia.
    by rewrite bool_decide_eq_true_2, Hlen by done.
  - intros e He' Hs. by eapply sleeps_loop.
  - intros d. rewrite HL. apply last_loop_not_sleep.
Qed.

Lemma core_loop_pacing_witness :
  ∃ vs s',
    exec (run "" (tasks 3) 0) (initial (hooked 3 1000) 0%nat)
    = (Returned vs, s', []) ∧
    count is_sleep (trace s') = 2%nat.
Proof.
  assert (Interval (prog (initial (hooked 3 1000) 0%nat)) > 0) as H
    by (simpl; lia).
  destruct (core_loop_pacing "" (initial (hooked 3 1000) 0%nat) (tasks 3) 0 H)
    as (vs & s' & He & _ & _ & Hc & _).
  exists vs, s'. split; [exact He|exact Hc].
Defined.

(** C9.  Neither [Run] nor [RunConc] writes the receiver: after the call,
    however it ends and under every schedule, every field of the program
    ([Tasks], [Interval], the four hooks, [isConc]) is what it was before;
    no procedure that the two entry points execute contains the write of
    [concMode]. *)
Theorem program_unchanged {V St : Type} (vnil : V) (s : State V St)
    (n : Z) (sched : list nat) :
  prog (Run vnil s).2 = prog s ∧
  prog (RunConc vnil n sched s).2 = prog s ∧
  read_only (callOnStart (V:=V) (St:=St)) ∧
  (∀ results : list V, read_only (callOnFinish (St:=St) results)) ∧
  (∀ (ts : list (Task V St)) offset, read_only (run vnil ts offset)) ∧
  (∀ (part : list (Task V St)) i, read_only (goroutine vnil part i)).
Proof.
  split_and!.
  - apply Run_frame.
  - apply RunConc_frame.
  - apply read_only_callOnStart.
  - apply read_only_callOnFinish.
  - intros. apply read_only_run_from.
  - intros. apply read_only_goroutine.
Qed.

(** C10.  For a program with at least one task, [RunConc(1)] is [Run]: there
    is one zone, [0:L], its goroutine runs the core loop over all tasks
    with offset 0, and under every schedule the outcome, the caller's
    memory and the whole trace of observations are those of [Run]. *)
Theorem RunConc_one_is_Run {V St : Type} (vnil : V) (s : State V St)
    (sched : list nat) :
  Tasks (prog s) ≠ [] →
  RunConc vnil 1 sched s = Run vnil s ∧
  safeRunnerQuantity 1 (len (Tasks (prog s))) = 1 ∧
  zones (len (Tasks (prog s))) 1 (len (Tasks (prog s)) ÷ 1)
  = [(0, len (Tasks (prog s)))] ∧
  dispatch vnil (Tasks (prog s)) (len (Tasks (prog s))) 1
           (len (Tasks (prog s)) ÷ 1)
  = Some [goroutine vnil (Tasks (prog s)) 0].
Proof.
  intros Hne.
  assert (1 ≤ len (Tasks (prog s))) as HL.
  { unfold len. destruct (Tasks (prog s)); [done|simpl; lia]. }
  split_and!.
  - unfold RunConc, Run.
    destruct (exec_callOnStart s) as (s1 & -> & Hp1 & _).
    rewrite RunConc_body_one by (by rewrite Hp1).
    destruct (exec_run vnil (Tasks (prog s1)) 0 s1) as (vs & s2 & -> & _).
    done.
  - runner_cases.
  - rewrite Z.quot_1_r. unfold zones. change (seqZ 0 1) with [0]. csimpl.
    change 0 with (1 - 1) at 1. by rewrite zone_last.
  - rewrite dispatch_spec by done. change (seqZ 0 1) with [0]. csimpl.
    rewrite Z.quot_1_r. change 0 with (1 - 1) at 1. rewrite zone_last.
    unfold shard. simpl. by rewrite drop_0, take_ge by (unfold len; lia).
Qed.

Lemma RunConc_one_is_Run_witness :
  RunConc "" 1 [0%nat; 0%nat; 0%nat] (initial (hooked 3 1000) 0%nat)
  = Run "" (initial (hooked 3 1000) 0%nat).
Proof.
  assert (Tasks (prog (initial (hooked 3 1000) 0%nat)) ≠ []) as H by done.
  exact (proj1 (RunConc_one_is_Run "" (initial (hooked 3 1000) 0%nat)
                  [0%nat; 0%nat; 0%nat] H)).
Defined.

(** C7 (the code departs from the claim).  With the four hooks set and no
    task, [RunConc(n)] with [n >= 1] calls the on-start hook and then, as
    the deferred call, the on-finish hook on the nil result, but it panics
    in between ([safeRunnerQuantity] answers 0 and the span is a division
    by zero): the on-finish hook does not receive a result sequence that is
    about to be returned, because none is. *)
Theorem RunConc_no_task_finish {V St : Type} (vnil : V) (k : positive)
    (sched : list nat) interval pre post start finish c (σ : St)
    (t : list (Event V)) :
  let p := {| Tasks := []; Interval := interval; PreHook := Some pre;
              PostHook := Some post; OnStart := Some start;
              OnFinish := Some finish; isConc := c |} in
  RunConc vnil (Z.pos k) sched {| prog := p; world := σ; trace := t |}
  = (Panicked,
     {| prog := p; world := finish [] (start σ);
        trace := (t ++ [EvStart]) ++ [EvFinish []] |}).
Proof.
  intros p. unfold RunConc. cbn.
  assert (safeRunnerQuantity (Z.pos k) 0 = 0) as Hz.
  { unfold safeRunnerQuantity. by rewrite bool_decide_eq_true_2 by lia. }
  unfold RunConc_body. cbn. change (len []) with 0. rewrite Hz. by cbn.
Qed.

(** Order preservation wherever [RunConc] has a runner, that is with at
    least one task or with [n <= 0]: on pure tasks its result sequence is,
    under every schedule, the one of [Run], namely the values of the
    tasks in order. *)
Lemma RunConc_agrees_with_Run {V St : Type} (vnil : V) (s : State V St)
    (n : Z) (sched : list nat) (vals : list V) :
  Forall2 pure_task (Tasks (prog s)) vals →
  Tasks (prog s) ≠ [] ∨ n ≤ 0 →
  (RunConc vnil n sched s).1 = Returned vals ∧
  (Run vnil s).1 = Returned vals.
Proof.
  intros Hpure Hcase.
  assert (1 ≤ safeRunnerQuantity n (len (Tasks (prog s)))) as Hw.
  { pose proof (len_nonneg (Tasks (prog s))).
    assert (Tasks (prog s) ≠ [] → 1 ≤ len (Tasks (prog s))).
    { unfold len. destruct (Tasks (prog s)); [done|simpl; lia]. }
    destruct Hcase; [|runner_cases].
    by apply safeRunnerQuantity_pos; auto. }
  destruct (RunConc_returns vnil n sched s Hw)
    as (vss & T & s' & -> & _ & _ & Hvs & _).
  destruct (Run_spec vnil s) as (vs & s'' & -> & _ & Hvs' & _). simpl.
  by rewrite (pure_returns _ _ _ Hpure Hvs), (pure_returns _ _ _ Hpure Hvs').
Qed.

(** C2 (the code departs from the claim).  On a program without tasks,
    [RunConc(n)] with [n >= 1] panics under every schedule:
    [safeRunnerQuantity] answers 0 and the span is a division by zero. *)
Theorem RunConc_no_task_panics {V St : Type} (vnil : V) (k : positive)
    (sched : list nat) interval pre post start finish c (σ : St)
    (t : list (Event V)) :
  safeRunnerQuantity (Z.pos k) 0 = 0 ∧
  go_div 0 (safeRunnerQuantity (Z.pos k) 0) = None ∧
  (RunConc vnil (Z.pos k) sched
     {| prog := {| Tasks := []; Interval := interval; PreHook := pre;
                   PostHook := post; OnStart := start; OnFinish := finish;
                   isConc := c |};
        world := σ; trace := t |}).1 = Panicked.
Proof.
  assert (safeRunnerQuantity (Z.pos k) 0 = 0) as Hz.
  { unfold safeRunnerQuantity. by rewrite bool_decide_eq_true_2 by lia. }
  split_and!; [done|by rewrite Hz|].
  match goal with |- (RunConc _ _ _ ?s).1 = _ =>
    destruct (RunConc_panics vnil (Z.pos k) sched s Hz) as (s' & -> & _)
  end.
  done.
Qed.

(** C3 (the code departs from the claim).  On a program without tasks, all
    of whose tasks are trivially pure, [Run] returns the empty sequence
    while [RunConc(n)] with [n >= 1] returns nothing: it panics. *)
Theorem RunConc_differs_from_Run {V St : Type} (vnil : V) (k : positive)
    (sched : list nat) interval pre post start finish c (σ : St)
    (t : list (Event V)) :
  let s := {| prog := {| Tasks := []; Interval := interval; PreHook := pre;
                         PostHook := post; OnStart := start;
                         OnFinish := finish; isConc := c |};
              world := σ; trace := t |} in
  Forall2 pure_task (Tasks (prog s)) [] ∧
  (Run vnil s).1 = Returned [] ∧
  (RunConc vnil (Z.pos k) sched s).1 = Panicked ∧
  (RunConc vnil (Z.pos k) sched s).1 ≠ (Run vnil s).1.
Proof.
  intros s.
  assert (safeRunnerQuantity (Z.pos k) (len (Tasks (prog s))) = 0) as Hz.
  { change (len (Tasks (prog s))) with 0. unfold safeRunnerQuantity.
    by rewrite bool_decide_eq_true_2 by lia. }
  destruct (RunConc_panics vnil (Z.pos k) sched s Hz) as (s' & -> & _).
  destruct (Run_spec vnil s) as (vs & s'' & -> & _ & Hvs & _).
  inv Hvs. split_and!; [constructor|done..].
Qed.

(** C1 (the code departs from the claim).  [RunConc] starts the goroutine of
    runner [i] with offset [i], not with the start [i * span] of its zone.
    With four tasks and two runners the second zone starts at index 2, but
    under every schedule the post-task hook receives the results of tasks
    2 and 3 with indices 1 and 2, and no hook ever receives index 3; the
    result sequence itself is in order. *)
Theorem RunConc_hook_indices (sched : list nat) :
  let s' := (RunConc "" 2 sched (initial (hooked 4 0) 0%nat)).2 in
  zones 4 (safeRunnerQuantity 2 4) (4 ÷ safeRunnerQuantity 2 4)
  = [(0, 2); (2, 4)] ∧
  (RunConc "" 2 sched (initial (hooked 4 0) 0%nat)).1
  = Returned ["task0"; "task1"; "task2"; "task3"] ∧
  EvPost 1 "task2" ∈ trace s' ∧ EvPost 2 "task3" ∈ trace s' ∧
  (EvPost 2 "task2" ∉ trace s') ∧
  (EvPre 3 ∉ trace s') ∧ (∀ v, EvPost 3 v ∉ trace s') ∧
  count is_pre (trace s') = 4%nat.
Proof.
  intros s'. subst s'.
  destruct (RunConc_returns "" 2 sched (initial (hooked 4 0) 0%nat))
    as (vss & T & s' & -> & _ & Hsh & _ & Ht & HT);
    [vm_compute; discriminate|].
  change (Forall2 (Forall2 returns)
            [[(λ σ : nat, ("task0", σ)); (λ σ, ("task1", σ))];
             [(λ σ : nat, ("task2", σ)); (λ σ, ("task3", σ))]] vss) in Hsh.
  inv Hsh. repeat match goal with
    | H : Forall2 _ (_ :: _) _ |- _ => inv H
    | H : Forall2 _ [] _ |- _ => inv H
    | H : returns _ _ |- _ => destruct H as [? <-]
    end.
  simpl in Ht, HT. simpl.
  assert (∀ e, e ∈ trace s' ↔ e ∈
    [EvStart; EvPre 0; EvTask "task0"; EvPost 0 "task0";
     EvPre 1; EvTask "task1"; EvPost 1 "task1";
     EvPre 1; EvTask "task2"; EvPost 1 "task2";
     EvPre 2; EvTask "task3"; EvPost 2 "task3";
     EvFinish ["task0"; "task1"; "task2"; "task3"]]) as Hin.
  { intros e. rewrite Ht. simpl. rewrite !elem_of_cons, elem_of_app, HT.
    rewrite !elem_of_cons, elem_of_nil. unfold finish_events. simpl.
    rewrite list_elem_of_singleton. tauto. }
  split_and!; try done.
  - apply Hin. rewrite !elem_of_cons. tauto.
  - apply Hin. rewrite !elem_of_cons. tauto.
  - rewrite Hin, !elem_of_cons, elem_of_nil.
    intros H; repeat (destruct H as [H|H]; [discriminate H|]); done.
  - rewrite Hin, !elem_of_cons, elem_of_nil.
    intros H; repeat (destruct H as [H|H]; [discriminate H|]); done.
  - intros v. rewrite Hin, !elem_of_cons, elem_of_nil.
    intros H; repeat (destruct H as [H|H]; [discriminate H|]); done.
  - rewrite Ht. simpl. rewrite count_cons, count_app, HT. done.
Qed.


(** * Further properties of the package *)

Section more.

Context {V St : Type} (vnil : V).

Implicit Types (p : Program V St) (s : State V St) (t : list (Event V)).
Implicit Types (m : list (trackedResult V)) (f : Task V St) (v : V).

Lemma has_runner {A} (ts : list A) n :
  ts ≠ [] ∨ n ≤ 0 → 1 ≤ safeRunnerQuantity n (len ts).
Proof.
  intros Hcase. pose proof (len_nonneg ts).
  assert (ts ≠ [] → 1 ≤ len ts).
  { unfold len. destruct ts; [done|simpl; lia]. }
  destruct Hcase; [|runner_cases].
  by apply safeRunnerQuantity_pos; auto.
Qed.

(** ** Program order inside an interleaving *)

Lemma each_sublist_concat {A} (ls : list (list A)) :
  Forall (λ l, l `sublist_of` concat ls) ls.
Proof.
  induction ls as [|l ls IH]; constructor; simpl.
  - by apply sublist_inserts_r.
  - eapply Forall_impl; [exact IH|]. intros l' Hl'. by apply sublist_inserts_l.
Qed.

(** Adequacy for a pool, keeping the order: the events of each goroutine
    occur in the trace in the order the goroutine produced them. *)
Lemma interleave_ordered p sched (pool : list (Proc V St unit)) Qs s :
  prog s = p → Forall2 (λ w Q, wp p w (λ _, Q)) pool Qs →
  ∃ s' T M tms, interleave sched pool s = Some (s', M) ∧ prog s' = p ∧
                trace s' = trace s ++ T ∧
                Forall2 (λ Q tm, Q tm.1 tm.2) Qs tms ∧
                Forall (λ tm, tm.1 `sublist_of` T) tms ∧
                T ≡ₚ concat tms.*1 ∧ M ≡ₚ concat tms.*2.
Proof.
  revert pool Qs s. induction sched as [|k sched IH]; intros pool Qs s Hp HF.
  - destruct (run_all_wp _ _ _ _ Hp HF) as (s' & tms & ? & ? & ? & ?).
    exists s', (concat tms.*1), (concat tms.*2), tms. split_and!; try done.
    pose proof (each_sublist_concat tms.*1) as Hsub.
    by rewrite Forall_fmap in Hsub.
  - destruct (pool !! k) as [w|] eqn:Hk; [|simpl; rewrite Hk; by apply IH].
    destruct (Forall2_lookup_l _ _ _ _ _ HF Hk) as (Q & HQk & Hw).
    rewrite (interleave_cons _ _ _ _ w) by (done || by intros ->).
    destruct (wp_step _ _ _ _ Hp Hw) as (w' & s1 & t1 & m1 & -> & Hp1 & Ht1 & Hw').
    destruct (IH (<[k := w']> pool) (<[k := λ t' m', Q (t1 ++ t') (m1 ++ m')]> Qs)
                 s1 Hp1)
      as (s' & T & M & tms & -> & ? & Ht & Hmet & Hsub & HT & HM).
    { by apply Forall2_insert. }
    assert (<[k := λ t' m', Q (t1 ++ t') (m1 ++ m')]> Qs !! k
            = Some (λ t' m', Q (t1 ++ t') (m1 ++ m'))) as Hins.
    { apply list_lookup_insert_eq. by eapply lookup_lt_Some. }
    destruct (Forall2_lookup_l _ _ _ _ _ Hmet Hins) as ([tk mk] & Htk & HQ).
    exists s', (t1 ++ T), (m1 ++ M), (<[k := (t1 ++ tk, m1 ++ mk)]> tms).
    split_and!; try done.
    + by rewrite Ht, Ht1, <-app_assoc.
    + by eapply Forall2_insert_back.
    + apply Forall_insert.
      * eapply Forall_impl; [exact Hsub|]. intros tm Htm.
        by apply sublist_inserts_l.
      * simpl. apply sublist_app; [done|].
        exact (Forall_lookup_1 _ _ _ _ Hsub Htk).
    + rewrite list_fmap_insert. simpl. rewrite concat_insert_app, HT; [done|].
      by rewrite list_lookup_fmap, Htk.
    + rewrite list_fmap_insert. simpl. rewrite concat_insert_app, HM; [done|].
      by rewrite list_lookup_fmap, Htk.
Qed.

Lemma collect_traces p (ids : list Z) (parts : Z → list (Task V St))
    (tms : list (list (Event V) * list (trackedResult V))) :
  Forall2 (λ i tm, ∃ vs, Forall2 returns (parts i) vs ∧
                         tm.1 = loop_events p (len (parts i)) i 0 vs ∧
                         tm.2 = [{| id := i; res := vs |}]) ids tms →
  ∃ vss, Forall2 (Forall2 returns) (parts <$> ids) vss ∧
         tms.*1 = zip_with (λ i vs, loop_events p (len vs) i 0 vs) ids vss ∧
         concat tms.*2 = zip_with mkTracked ids vss.
Proof.
  induction 1 as [|i [t m] ids tms (vs & Hvs & Ht & Hm) _ (vss & ? & Hts & Hms)].
  - by exists [].
  - exists (vs :: vss). csimpl in *. subst t m. split_and!.
    + by constructor.
    + rewrite Hts. unfold len. by rewrite (Forall2_length _ _ _ Hvs).
    + by rewrite Hms.
Qed.

Lemma Forall_zip_with_Forall2 {A B C} (g : A → B → C) (P : C → Prop)
    (l : list A) (k : list B) :
  length l = length k → Forall P (zip_with g l k) →
  Forall2 (λ a b, P (g a b)) l k.
Proof.
  revert k. induction l as [|a l IH]; intros [|b k] Hlen HF;
    simplify_eq/=; [constructor|].
  inv HF. constructor; [done|by apply IH].
Qed.

Lemma RunConc_body_ordered n sched s :
  1 ≤ safeRunnerQuantity n (len (Tasks (prog s))) →
  ∃ s' T vss,
    RunConc_body vnil n sched s = (Returned (concat vss), s') ∧
    prog s' = prog s ∧ trace s' = trace s ++ T ∧
    Forall2 (Forall2 returns)
      (shard (Tasks (prog s)) <$>
         zones (len (Tasks (prog s)))
               (safeRunnerQuantity n (len (Tasks (prog s))))
               (len (Tasks (prog s)) ÷
                  safeRunnerQuantity n (len (Tasks (prog s))))) vss ∧
    Forall2 (λ i vs, loop_events (prog s) (len vs) i 0 vs `sublist_of` T)
      (seqZ 0 (safeRunnerQuantity n (len (Tasks (prog s))))) vss ∧
    T ≡ₚ concat (zip_with (λ i vs, loop_events (prog s) (len vs) i 0 vs)
                   (seqZ 0 (safeRunnerQuantity n (len (Tasks (prog s))))) vss).
Proof.
  unfold RunConc_body. cbv zeta.
  set (ts := Tasks (prog s)). set (L := len ts).
  set (w := safeRunnerQuantity n L). intros Hw.
  unfold go_div. rewrite bool_decide_eq_false_2 by lia.
  subst L. rewrite dispatch_spec by done.
  set (parts := λ i, shard ts (zone (len ts) w (len ts ÷ w) i)).
  destruct (interleave_ordered (prog s) sched
              ((λ i, goroutine vnil (parts i) i) <$> seqZ 0 w)
              ((λ i t m, ∃ vs, Forall2 returns (parts i) vs ∧
                               t = loop_events (prog s) (len (parts i)) i 0 vs ∧
                               m = [{| id := i; res := vs |}]) <$> seqZ 0 w)
              s eq_refl)
    as (s' & T & M & tms & Hi & Hp & Ht & Hmet & Hsub & HT & HM).
  { apply Forall2_fmap_2, Forall_Forall2_diag, Forall_forall.
    intros i _. apply wp_goroutine. }
  cbv beta delta [parts] in Hi. rewrite Hi. clear Hi.
  apply Forall2_fmap_l in Hmet.
  destruct (collect_traces (prog s) (seqZ 0 w) parts tms Hmet)
    as (vss & Hvss & Hts & Hms).
  assert (length (seqZ 0 w) = length vss) as Hlen.
  { rewrite <-(Forall2_length _ _ _ Hvss). by rewrite length_fmap. }
  rewrite Hms in HM.
  assert (length M = Z.to_nat w) as HlenM.
  { rewrite HM, length_zip_with, <-Hlen, length_seqZ. lia. }
  unfold gather. rewrite bool_decide_eq_true_2 by (unfold len; lia).
  rewrite take_ge by lia.
  rewrite (SliceStable_restores M _ HM (tracked_sorted 0 w vss)).
  rewrite foldl_append_res, res_tracked by done. simpl.
  exists s', T, vss. split_and!; try done.
  - unfold zones. by rewrite <-list_fmap_compose.
  - apply (Forall_zip_with_Forall2
             (λ i vs, loop_events (prog s) (len vs) i 0 vs)
             (λ t, t `sublist_of` T)); [done|].
    rewrite <-Hts. by rewrite Forall_fmap.
  - by rewrite HT, Hts.
Qed.

(** The whole of what a returning [RunConc] does, under every schedule:
    the results per runner [vss] make up the result; the observations
    between the on-start and the on-finish hook are an interleaving of the
    observations of the runners, runner [i] running the core loop with
    offset [i]. *)
Lemma RunConc_ordered n sched s :
  Tasks (prog s) ≠ [] ∨ n ≤ 0 →
  ∃ vss T s',
    RunConc vnil n sched s = (Returned (concat vss), s') ∧
    prog s' = prog s ∧
    Forall2 (Forall2 returns)
      (shard (Tasks (prog s)) <$>
         zones (len (Tasks (prog s)))
               (safeRunnerQuantity n (len (Tasks (prog s))))
               (len (Tasks (prog s)) ÷
                  safeRunnerQuantity n (len (Tasks (prog s))))) vss ∧
    Forall2 returns (Tasks (prog s)) (concat vss) ∧
    trace s' = trace s ++ start_events (prog s) ++ T ++
               finish_events (prog s) (concat vss) ∧
    Forall2 (λ i vs, loop_events (prog s) (len vs) i 0 vs `sublist_of` T)
      (seqZ 0 (safeRunnerQuantity n (len (Tasks (prog s))))) vss ∧
    T ≡ₚ concat (zip_with (λ i vs, loop_events (prog s) (len vs) i 0 vs)
                   (seqZ 0 (safeRunnerQuantity n (len (Tasks (prog s))))) vss).
Proof.
  intros Hcase.
  pose proof (has_runner _ n Hcase) as Hw.
  unfold RunConc.
  destruct (exec_callOnStart s) as (s1 & -> & Hp1 & Ht1).
  destruct (RunConc_body_ordered n sched s1)
    as (s2 & T & vss & -> & Hp2 & Ht2 & Hvss & Hsub & HT); [by rewrite Hp1|].
  cbn [named_result].
  destruct (exec_callOnFinish (concat vss) s2) as (s3 & -> & Hp3 & Ht3).
  rewrite Hp1 in *. rewrite Hp2 in *.
  exists vss, T, s3. split_and!; try done.
  - apply Forall2_concat in Hvss. revert Hvss.
    destruct (span_bounds _ _ (len_nonneg (Tasks (prog s))) Hw) as (? & ? & ?).
    by rewrite shards_partition by (done || nia).
  - by rewrite Ht3, Ht2, Ht1, <-!app_assoc.
Qed.

(** ** What the hooks receive *)

Lemma pre_events_loop p l offset i (vs : list V) :
  filter (λ e, is_pre e) (loop_events p l offset i vs)
  = if PreHook p is Some _ then EvPre <$> seqZ (i + offset) (len vs) else [].
Proof.
  revert i. induction vs as [|v vs IH]; intros i; simpl.
  - by destruct (PreHook p).
  - unfold task_events. rewrite !filter_app, IH.
    destruct (PreHook p), (PostHook p), (_ && _); try done;
      rewrite (seqZ_cons _ (len (v :: vs))) by (unfold len; simpl; lia);
      replace (Z.succ (i + offset)) with (i + 1 + offset) by lia;
      by replace (Z.pred (len (v :: vs))) with (len vs)
        by (unfold len; simpl; lia).
Qed.

Lemma post_events_loop p l offset i (vs : list V) :
  filter (λ e, is_post e) (loop_events p l offset i vs)
  = if PostHook p is Some _
    then zip_with EvPost (seqZ (i + offset) (len vs)) vs else [].
Proof.
  revert i. induction vs as [|v vs IH]; intros i; simpl.
  - by destruct (PostHook p).
  - unfold task_events. rewrite !filter_app, IH.
    destruct (PreHook p), (PostHook p), (_ && _); try done;
      rewrite (seqZ_cons _ (len (v :: vs))) by (unfold len; simpl; lia);
      replace (Z.succ (i + offset)) with (i + 1 + offset) by lia;
      by replace (Z.pred (len (v :: vs))) with (len vs)
        by (unfold len; simpl; lia).
Qed.


(** ** How often each callback runs *)

Ltac count_events vs :=
  let i := fresh "i" in
  let IH := fresh "IH" in
  intros i; revert i; induction vs as [|? vs IH]; intros i; simpl;
  [ rewrite ?count_nil; repeat case_match; done
  | rewrite count_app, count_task_events, IH; simpl;
    repeat case_match; lia ].

Lemma count_task_loop p l offset (vs : list V) :
  ∀ i, count is_task (loop_events p l offset i vs) = length vs.
Proof. count_events vs. Qed.

Lemma count_sleep_runners p (ids : list Z) (vss : list (list V)) :
  length ids = length vss →
  count is_sleep
    (concat (zip_with (λ i vs, loop_events p (len vs) i 0 vs) ids vss))
  = if bool_decide (Interval p > 0)
    then sum_list_with (λ vs, length vs - 1)%nat vss else 0%nat.
Proof.
  revert vss. induction ids as [|i ids IH]; intros [|vs vss] Hlen;
    simplify_eq/=.
  - rewrite count_nil. by case_bool_decide.
  - rewrite count_app, count_sleep_loop, IH by (done || lia).
    by case_bool_decide.
Qed.

Lemma sum_pred_lengths {A} (ls : list (list A)) :
  Forall (λ l, l ≠ []) ls →
  (length ls ≤ length (concat ls))%nat ∧
  sum_list_with (λ l, length l - 1)%nat ls
  = (length (concat ls) - length ls)%nat.
Proof.
  induction 1 as [|l ls Hl _ [IH1 IH2]]; simpl; [done|].
  rewrite length_app, IH2. destruct l; [done|]. simpl. lia.
Qed.

Lemma sum_pred_empty {A} (ls : list (list A)) :
  concat ls = [] → sum_list_with (λ l, length l - 1)%nat ls = 0%nat.
Proof.
  induction ls as [|l ls IH]; simpl; [done|].
  intros [-> ?]%app_eq_nil. by rewrite IH.
Qed.

Lemma shard_length {A} (ts : list A) lo hi :
  0 ≤ lo → lo ≤ hi → hi ≤ len ts → len (shard ts (lo, hi)) = hi - lo.
Proof.
  intros. unfold shard, len in *. simpl.
  rewrite length_take, length_drop. lia.
Qed.

Lemma shards_nonempty (ts : list (Task V St)) n (vss : list (list V)) :
  ts ≠ [] →
  Forall2 (Forall2 returns)
    (shard ts <$> zones (len ts) (safeRunnerQuantity n (len ts))
                        (len ts ÷ safeRunnerQuantity n (len ts))) vss →
  Forall (λ vs, vs ≠ []) vss ∧
  length vss = Z.to_nat (safeRunnerQuantity n (len ts)).
Proof.
  intros Hne HF.
  assert (1 ≤ len ts) as HL.
  { unfold len. destruct ts; [done|simpl; lia]. }
  pose proof (safeRunnerQuantity_pos n (len ts) HL) as Hw.
  destruct (span_bounds (len ts) (safeRunnerQuantity n (len ts)))
    as (Hs0 & Hs1 & Hs2); [lia..|].
  split.
  - eapply Forall2_Forall_r; [exact HF|].
    unfold zones. rewrite !Forall_fmap. apply Forall_seqZ.
    intros i Hi. unfold compose. intros vs Hvs ->.
    apply Forall2_length in Hvs.
    pose proof (zone_in_range (len ts) _ i (len_nonneg ts) (proj1 Hw)
                  ltac:(lia)) as Hz.
    assert ((zone (len ts) (safeRunnerQuantity n (len ts))
                  (len ts ÷ safeRunnerQuantity n (len ts)) i).1
            < (zone (len ts) (safeRunnerQuantity n (len ts))
                    (len ts ÷ safeRunnerQuantity n (len ts)) i).2) as Hlt.
    { unfold zone. case_bool_decide; simpl; nia. }
    destruct (zone _ _ _ i) as [lo hi]. simpl in *.
    pose proof (shard_length ts lo hi) as Hsl.
    unfold len in Hsl at 2. rewrite Hvs in Hsl. simpl in Hsl. lia.
  - rewrite <-(Forall2_length _ _ _ HF). unfold zones.
    by rewrite !length_fmap, length_seqZ.
Qed.

Lemma count_start_events (φ : Event V → bool) p :
  count φ (start_events p)
  = if OnStart p is Some _ then if φ EvStart then 1%nat else 0%nat else 0%nat.
Proof.
  unfold start_events. destruct (OnStart p); [|done].
  rewrite count_cons, count_nil. destruct (φ _); lia.
Qed.

Lemma count_finish_events (φ : Event V → bool) p (r : list V) :
  count φ (finish_events p r)
  = if OnFinish p is Some _
    then if φ (EvFinish r) then 1%nat else 0%nat else 0%nat.
Proof.
  unfold finish_events. destruct (OnFinish p); [|done].
  rewrite count_cons, count_nil. destruct (φ _); lia.
Qed.

(** X2.  How often [Run] calls each callback, for every configuration of
    the hooks and of the interval: the on-start and on-finish hooks once
    when set, the pre-task and post-task hooks once per task when set,
    every task once, and a pause after each task but the last when the
    interval is positive; a hook that is not set is never called, and an
    interval that is zero or negative never pauses. *)
Theorem Run_event_counts (s : State V St) :
  let new := drop (length (trace s)) (trace (Run vnil s).2) in
  let L := length (Tasks (prog s)) in
  count is_start new = (if OnStart (prog s) is Some _ then 1 else 0)%nat ∧
  count is_pre new = (if PreHook (prog s) is Some _ then L else 0)%nat ∧
  count is_task new = L ∧
  count is_post new = (if PostHook (prog s) is Some _ then L else 0)%nat ∧
  count is_sleep new
  = (if bool_decide (Interval (prog s) > 0)%Z then L - 1 else 0)%nat ∧
  count is_finish new = (if OnFinish (prog s) is Some _ then 1 else 0)%nat.
Proof.
  intros new L. subst new L.
  destruct (Run_spec vnil s) as (vs & s' & -> & Hp & Hvs & Ht). simpl.
  pose proof (Forall2_length _ _ _ Hvs) as Hlen.
  rewrite Ht, drop_app_length, !count_app, !count_start_events,
    !count_finish_events.
  rewrite count_start_loop, count_pre_loop, count_task_loop, count_post_loop,
    count_finish_loop, count_sleep_loop by (unfold len; lia).
  rewrite Hlen. simpl.
  split_and!; repeat case_match; lia.
Qed.

(** X3.  How often [RunConc] calls each callback, for every configuration,
    every requested count [n] and every schedule, the panic on an empty
    task list included: the counts of the hooks and of the tasks are those
    of [Run], but each runner pauses only between its own tasks, so with a
    positive interval there are [L - w] pauses for [L] tasks and [w]
    effective runners instead of [L - 1]. *)
Theorem RunConc_event_counts (s : State V St) (n : Z) (sched : list nat) :
  let new := drop (length (trace s)) (trace (RunConc vnil n sched s).2) in
  let L := length (Tasks (prog s)) in
  let w := Z.to_nat (safeRunnerQuantity n (len (Tasks (prog s)))) in
  count is_start new = (if OnStart (prog s) is Some _ then 1 else 0)%nat ∧
  count is_pre new = (if PreHook (prog s) is Some _ then L else 0)%nat ∧
  count is_task new = L ∧
  count is_post new = (if PostHook (prog s) is Some _ then L else 0)%nat ∧
  count is_sleep new
  = (if bool_decide (Interval (prog s) > 0)%Z then L - w else 0)%nat ∧
  count is_finish new = (if OnFinish (prog s) is Some _ then 1 else 0)%nat.
Proof.
  intros new L w. subst new L w.
  pose proof (len_nonneg (Tasks (prog s))) as HL.
  destruct (decide (1 ≤ safeRunnerQuantity n (len (Tasks (prog s))))) as [Hw|Hw].
  - destruct (RunConc_returns vnil n sched s Hw)
      as (vss & T & s' & -> & Hp & Hsh & Hvs & Ht & HT). simpl.
    assert (length (seqZ 0 (safeRunnerQuantity n (len (Tasks (prog s)))))
            = length vss) as Hids.
    { rewrite <-(Forall2_length _ _ _ Hsh). unfold zones.
      by rewrite !length_fmap. }
    rewrite Ht, drop_app_length, !count_app, !count_start_events,
      !count_finish_events, !HT.
    rewrite (count_runners is_start _ 0), (count_runners is_finish _ 0),
      (count_runners is_task _ 1),
      (count_runners is_pre _ (if PreHook (prog s) is Some _ then 1 else 0)),
      (count_runners is_post _ (if PostHook (prog s) is Some _ then 1 else 0)),
      count_sleep_runners; try done.
    + rewrite <-(Forall2_length _ _ _ Hvs). simpl.
      assert (sum_list_with (λ vs : list V, length vs - 1)%nat vss
              = (length (Tasks (prog s))
                 - Z.to_nat (safeRunnerQuantity n (len (Tasks (prog s)))))%nat)
        as ->.
      { destruct (decide (Tasks (prog s) = [])) as [Hnil|Hne].
        - rewrite Hnil in Hvs |- *. inv Hvs.
          by rewrite sum_pred_empty.
        - destruct (shards_nonempty _ n vss Hne Hsh) as [Hne' Hlen].
          destruct (sum_pred_lengths vss Hne') as [_ ->].
          by rewrite Hlen, <-(Forall2_length _ _ _ Hvs). }
      split_and!; repeat case_match; lia.
    + intros. rewrite count_post_loop. case_match; lia.
    + intros. rewrite count_pre_loop. case_match; lia.
    + intros. rewrite count_task_loop. lia.
    + intros. rewrite count_finish_loop. lia.
    + intros. rewrite count_start_loop. lia.
  - assert (safeRunnerQuantity n (len (Tasks (prog s))) = 0) as Hz.
    { revert Hw. runner_cases. }
    destruct (RunConc_panics vnil n sched s Hz) as (s' & -> & Hp & Ht). simpl.
    apply safeRunnerQuantity_zero in Hz as [Hnil Hn]; [|done].
    assert (Tasks (prog s) = []) as -> by (by destruct (Tasks (prog s))).
    rewrite Ht, drop_app_length, !count_app, !count_start_events,
      !count_finish_events. simpl.
    split_and!; repeat case_match; lia.
Qed.

(** ** The concurrent trace *)


Lemma pre_events_runners p (ids : list Z) (vss : list (list V)) :
  filter (λ e, is_pre e)
    (concat (zip_with (λ i vs, loop_events p (len vs) i 0 vs) ids vss))
  = if PreHook p is Some _
    then concat (zip_with (λ i vs, EvPre <$> seqZ i (len vs)) ids vss)
    else [].
Proof.
  revert vss. induction ids as [|i ids IH]; intros [|vs vss]; simpl;
    try by destruct (PreHook p).
  rewrite filter_app, IH, pre_events_loop. by destruct (PreHook p).
Qed.

Lemma post_events_runners p (ids : list Z) (vss : list (list V)) :
  filter (λ e, is_post e)
    (concat (zip_with (λ i vs, loop_events p (len vs) i 0 vs) ids vss))
  = if PostHook p is Some _
    then concat (zip_with (λ i vs, zip_with EvPost (seqZ i (len vs)) vs)
                   ids vss)
    else [].
Proof.
  revert vss. induction ids as [|i ids IH]; intros [|vs vss]; simpl;
    try by destruct (PostHook p).
  rewrite filter_app, IH, post_events_loop. by destruct (PostHook p).
Qed.

Lemma filter_start_events (φ : Event V → bool) p :
  φ EvStart = false → filter (λ e, φ e) (start_events p) = [].
Proof.
  intros Hφ. unfold start_events. destruct (OnStart p); [|done].
  rewrite filter_cons. by rewrite Hφ.
Qed.

Lemma filter_finish_events (φ : Event V → bool) p (r : list V) :
  φ (EvFinish r) = false → filter (λ e, φ e) (finish_events p r) = [].
Proof.
  intros Hφ. unfold finish_events. destruct (OnFinish p); [|done].
  rewrite filter_cons. by rewrite Hφ.
Qed.

Lemma shard_sizes (ts : list (Task V St)) w (vss : list (list V)) :
  1 ≤ w →
  Forall2 (Forall2 returns)
    (shard ts <$> zones (len ts) w (len ts ÷ w)) vss →
  Forall2 (λ z vs, len vs = z.2 - z.1) (zones (len ts) w (len ts ÷ w)) vss.
Proof.
  intros Hw HF. rewrite Forall2_fmap_l in HF.
  apply Forall2_same_length_lookup. split; [by eapply Forall2_length|].
  intros k z vs Hz Hvs.
  pose proof (Forall2_lookup_lr _ _ _ _ _ _ HF Hz Hvs) as Hret. simpl in Hret.
  apply Forall2_length in Hret.
  unfold zones in Hz. rewrite list_lookup_fmap in Hz.
  destruct (seqZ 0 w !! k) as [i|] eqn:Hi; [|done].
  cbn [fmap option_fmap option_map] in Hz. injection Hz as <-.
  apply lookup_seqZ in Hi as [-> Hk].
  pose proof (zone_in_range (len ts) w (0 + Z.of_nat k) (len_nonneg ts) Hw
                ltac:(lia)) as Hz.
  destruct (zone _ _ _ _) as [lo hi]. simpl in Hz |- *.
  rewrite <-(shard_length ts lo hi) by lia. unfold len. by rewrite Hret.
Qed.


Lemma singletons_pre (ids : list Z) (vss : list (list V)) :
  length ids = length vss → Forall (λ vs, len vs = 1) vss →
  concat (zip_with (λ i vs, EvPre (V:=V) <$> seqZ i (len vs)) ids vss)
  = EvPre <$> ids.
Proof.
  revert vss. induction ids as [|i ids IH]; intros [|vs vss] Hlen HF;
    simplify_eq/=; [done|].
  inv HF. rewrite IH by done.
  match goal with H : len vs = 1 |- _ => rewrite H end. done.
Qed.

Lemma singletons_post (ids : list Z) (vss : list (list V)) :
  length ids = length vss → Forall (λ vs, len vs = 1) vss →
  concat (zip_with (λ i vs, zip_with EvPost (seqZ i (len vs)) vs) ids vss)
  = zip_with EvPost ids (concat vss).
Proof.
  revert vss. induction ids as [|i ids IH]; intros [|vs vss] Hlen HF;
    simplify_eq/=; [done|].
  inv HF. rewrite IH by done.
  match goal with H : len vs = 1 |- _ => rewrite H; unfold len in H end.
  destruct vs as [|v [|??]]; simpl in *; done || lia.
Qed.


(** ** Gathering and merging *)

(** X7.  The merge of [RunConc] does not depend on the order in which the
    runners finish: whatever the order of arrival of the tracked results of
    runners [0 .. w-1], sorting them by runner id and appending their
    results gives the results in runner order. *)
Theorem merge_restores_order (vss : list (list V))
    (arrived : list (trackedResult V)) :
  arrived ≡ₚ zip_with mkTracked (seqZ 0 (len vss)) vss →
  foldl (λ results r, results ++ res r) [] (SliceStable less_id arrived)
  = concat vss.
Proof.
  intros Hperm.
  rewrite (SliceStable_restores arrived _ Hperm (tracked_sorted 0 _ vss)).
  rewrite foldl_append_res, res_tracked; [done|].
  rewrite length_seqZ. unfold len. lia.
Qed.

(** X8.  How a call of [RunConc] ends, for every program, every requested
    count and every schedule: no goroutine ever panics (no slice
    expression and no store is out of range) and the gathering loop never
    blocks for ever; the call panics exactly when there is no task and
    [n >= 1]; otherwise it returns one value per task, the [i]-th being a
    value returned by the [i]-th task, also when the tasks are not pure. *)
Theorem RunConc_outcome (s : State V St) (n : Z) (sched : list nat) :
  (RunConc vnil n sched s).1 ≠ Crashed ∧
  ((RunConc vnil n sched s).1 = Panicked ↔ Tasks (prog s) = [] ∧ 1 ≤ n) ∧
  (∀ vs, (RunConc vnil n sched s).1 = Returned vs →
         Forall2 returns (Tasks (prog s)) vs).
Proof.
  pose proof (len_nonneg (Tasks (prog s))) as HL.
  destruct (decide (1 ≤ safeRunnerQuantity n (len (Tasks (prog s))))) as [Hw|Hw].
  - destruct (RunConc_returns vnil n sched s Hw)
      as (vss & T & s' & -> & _ & _ & Hvs & _). simpl.
    split_and!; [done| |by intros vs [= <-]].
    split; [done|]. intros [Hnil Hn]. exfalso. revert Hw.
    rewrite Hnil. change (len []) with 0. runner_cases.
  - assert (safeRunnerQuantity n (len (Tasks (prog s))) = 0) as Hz.
    { revert Hw. runner_cases. }
    destruct (RunConc_panics vnil n sched s Hz) as (s' & -> & _). simpl.
    apply safeRunnerQuantity_zero in Hz as [Hnil Hn]; [|done].
    split_and!; [done| |done].
    split; [|done]. intros _. split; [|done].
    by destruct (Tasks (prog s)).
Qed.

(** ** The requested count *)

(** X9.  With at least one task, [RunConc] depends on the requested count
    only through its normalisation: [RunConc(n)] is [RunConc] of the
    effective count, so every [n] above the number of tasks behaves as
    that number and every [n] below 1 as 1. *)
Theorem RunConc_normalised (s : State V St) (n : Z) (sched : list nat) :
  Tasks (prog s) ≠ [] →
  RunConc vnil n sched s
  = RunConc vnil (safeRunnerQuantity n (len (Tasks (prog s)))) sched s.
Proof.
  intros Hne.
  assert (1 ≤ len (Tasks (prog s))) as HL.
  { unfold len. destruct (Tasks (prog s)); [done|simpl; lia]. }
  unfold RunConc.
  destruct (exec_callOnStart s) as (s1 & -> & Hp1 & _).
  assert (RunConc_body vnil n sched s1
          = RunConc_body vnil (safeRunnerQuantity n (len (Tasks (prog s))))
              sched s1) as ->; [|done].
  unfold RunConc_body. cbv zeta. rewrite Hp1.
  assert (safeRunnerQuantity (safeRunnerQuantity n (len (Tasks (prog s))))
            (len (Tasks (prog s)))
          = safeRunnerQuantity n (len (Tasks (prog s)))) as -> by runner_cases.
  done.
Qed.

Lemma RunConc_body_single n sched s :
  safeRunnerQuantity n (len (Tasks (prog s))) = 1 →
  RunConc_body vnil n sched s
  = ((exec (run vnil (Tasks (prog s)) 0) s).1.1,
     (exec (run vnil (Tasks (prog s)) 0) s).1.2).
Proof.
  intros Hw. unfold RunConc_body. cbv zeta. rewrite Hw.
  set (ts := Tasks (prog s)).
  unfold go_div. rewrite bool_decide_eq_false_2 by done.
  rewrite dispatch_spec by done.
  change (seqZ 0 1) with [0]. csimpl. rewrite Z.quot_1_r.
  change 0 with (1 - 1) at 1. rewrite zone_last. unfold shard. simpl.
  rewrite drop_0, take_ge by (unfold len; lia).
  rewrite interleave_single. unfold goroutine. rewrite bind_unfold, exec_bind.
  destruct (exec_run vnil ts 0 s) as (vs & s' & -> & _ & _ & _). simpl.
  done.
Qed.

(** X10.  On a program with at least one task, whenever a single runner
    is used, that is for every [n <= 0] and, when there is exactly one
    task, for every [n], [RunConc(n)] is [Run]: same outcome, same caller
    memory, same trace, under every schedule. *)
Theorem RunConc_single_runner_is_Run (s : State V St) (n : Z)
    (sched : list nat) :
  Tasks (prog s) ≠ [] →
  n ≤ 0 ∨ len (Tasks (prog s)) = 1 →
  RunConc vnil n sched s = Run vnil s.
Proof.
  intros _ Hcase.
  assert (safeRunnerQuantity n (len (Tasks (prog s))) = 1) as Hw.
  { pose proof (len_nonneg (Tasks (prog s))). destruct Hcase; runner_cases. }
  unfold RunConc, Run.
  destruct (exec_callOnStart s) as (s1 & -> & Hp1 & _).
  rewrite RunConc_body_single by (by rewrite Hp1).
  destruct (exec_run vnil (Tasks (prog s1)) 0 s1) as (vs & s2 & -> & _).
  done.
Qed.

(** ** The [isConc] flag *)

Lemma flag_blind_bind {A B} (w : Proc V St A) (k : A → Proc V St B) :
  flag_blind w → (∀ a, flag_blind (k a)) → flag_blind (bind w k).
Proof.
  intros Hw Hk.
  induction w as [a|k' IH|b k' IH|h e k' IH|f k' IH|d k' IH|r k' IH|];
    simpl in *; auto.
  destruct Hw as [Heq Hw]. split; [|by auto].
  intros b p. by rewrite Heq.
Qed.

Lemma flag_blind_callPreHook idx :
  flag_blind (callPreHook (V:=V) (St:=St) idx).
Proof. split; [done|]. intros p. simpl. by destruct (PreHook p). Qed.

Lemma flag_blind_callPostHook idx v :
  flag_blind (callPostHook (St:=St) idx v).
Proof. split; [done|]. intros p. simpl. by destruct (PostHook p). Qed.

Lemma flag_blind_callOnStart : flag_blind (callOnStart (V:=V) (St:=St)).
Proof. split; [done|]. intros p. simpl. by destruct (OnStart p). Qed.

Lemma flag_blind_callOnFinish (results : list V) :
  flag_blind (callOnFinish (St:=St) results).
Proof. split; [done|]. intros p. simpl. by destruct (OnFinish p). Qed.

Lemma flag_blind_pause isLast : flag_blind (pause (V:=V) (St:=St) isLast).
Proof.
  split; [done|]. intros p. simpl.
  by destruct (bool_decide (Interval p > 0) && negb isLast).
Qed.

Lemma flag_blind_run_from l offset i (ts : list (Task V St)) results :
  flag_blind (run_from l offset i ts results).
Proof.
  revert i results. induction ts as [|f ts IH]; intros i results; [done|].
  cbn [run_from].
  apply flag_blind_bind; [apply flag_blind_callPreHook|intros _].
  apply flag_blind_bind; [done|intros v].
  apply flag_blind_bind; [by destruct (go_store results i v)|intros r].
  apply flag_blind_bind; [apply flag_blind_callPostHook|intros _].
  apply flag_blind_bind; [apply flag_blind_pause|intros _]. apply IH.
Qed.

Lemma flag_blind_goroutine (part : list (Task V St)) i :
  flag_blind (goroutine vnil part i).
Proof.
  apply flag_blind_bind; [apply flag_blind_run_from|done].
Qed.

(** A flag-blind procedure does the same whatever the flag, and leaves the
    flag as it found it. *)
Lemma exec_flag {A} (w : Proc V St A) b s :
  flag_blind w →
  exec w (write_isConc b s)
  = ((exec w s).1.1, write_isConc b (exec w s).1.2, (exec w s).2).
Proof.
  revert s.
  induction w as [a|k IH|b' k IH|h e k IH|f k IH|d k IH|r k IH|];
    intros s Hw; simpl in *; try done.
  - destruct Hw as [Heq Hw]. fold (flag_program b (prog s)).
    rewrite Heq. by apply IH.
  - by apply (IH (observe e (with_world (h (world s)) s))).
  - destruct (f (world s)) as [v σ].
    by apply (IH v (observe (EvTask v) (with_world σ s))).
  - by apply (IH (observe (EvSleep d) s)).
  - rewrite (IH s Hw). by destruct (exec k s) as [[??]?].
Qed.

Lemma step_flag {A} (w : Proc V St A) b s :
  flag_blind w →
  step w (write_isConc b s)
  = ((step w s).1.1, write_isConc b (step w s).1.2, (step w s).2) ∧
  flag_blind (step w s).1.1.
Proof.
  destruct w as [a|k|b' k|h e k|f k|d k|r k|]; simpl; try done.
  - intros [Heq Hw]. fold (flag_program b (prog s)). by rewrite Heq.
  - intros Hk. destruct (f (world s)) as [v σ]. simpl. auto.
Qed.

Lemma run_all_flag (pool : list (Proc V St unit)) b s :
  Forall flag_blind pool →
  run_all pool (write_isConc b s)
  = fmap (M:=option) (λ sm, (write_isConc b sm.1, sm.2)) (run_all pool s).
Proof.
  intros HF. revert s. induction HF as [|w pool Hw _ IH]; intros s; [done|].
  simpl. rewrite (exec_flag w b s Hw).
  destruct (exec w s) as [[[[]| |] s1] m1]; simpl; try done.
  rewrite IH. by destruct (run_all pool s1) as [[??]|].
Qed.

Lemma interleave_flag sched (pool : list (Proc V St unit)) b s :
  Forall flag_blind pool →
  interleave sched pool (write_isConc b s)
  = fmap (M:=option) (λ sm, (write_isConc b sm.1, sm.2))
      (interleave sched pool s).
Proof.
  revert pool s. induction sched as [|k sched IH]; intros pool s HF.
  - by apply run_all_flag.
  - simpl. destruct (pool !! k) as [w|] eqn:Hk; [|by apply IH].
    pose proof (Forall_lookup_1 _ _ _ _ HF Hk) as Hw.
    destruct (step_flag w b s Hw) as [Hstep Hw'].
    destruct w as [a|k'|b' k'|h e k'|f k'|d k'|r k'|]; try done;
      rewrite Hstep; destruct (step _ s) as [[w' s1] m1]; simpl in *;
      (rewrite IH by (by apply Forall_insert));
      by destruct (interleave sched _ s1) as [[??]|].
Qed.

Lemma dispatch_flag_blind (ts : list (Task V St)) L w span pool :
  dispatch vnil ts L w span = Some pool → Forall flag_blind pool.
Proof.
  intros Hd%mapM_Some_1. induction Hd as [|i g ids pool Hg _ IH]; [done|].
  constructor; [|done].
  destruct (zone L w span i) as [lo hi].
  destruct (go_slice ts lo hi) as [part|]; simplify_eq/=.
  apply flag_blind_goroutine.
Qed.

Lemma RunConc_body_flag n sched b s :
  RunConc_body vnil n sched (write_isConc b s)
  = ((RunConc_body vnil n sched s).1,
     write_isConc b (RunConc_body vnil n sched s).2).
Proof.
  unfold RunConc_body. cbv zeta.
  change (Tasks (prog (write_isConc b s))) with (Tasks (prog s)).
  destruct (go_div _ _) as [span|]; [|done].
  destruct (dispatch _ _ _ _ _) as [pool|] eqn:Hd; [|done].
  apply dispatch_flag_blind in Hd. rewrite (interleave_flag _ _ _ _ Hd).
  destruct (interleave sched pool s) as [[s' m]|]; [|done]. simpl.
  by destruct (gather _ m).
Qed.

(** X11.  The [isConc] flag, which only [concMode] writes, is never read:
    setting it with [concMode] before [Run] or [RunConc] gives the same
    outcome, the same effect on the caller's memory and the same trace as
    setting it afterwards, and the flag keeps the value set. *)
Theorem concMode_commutes (activate : bool) (s : State V St) (n : Z)
    (sched : list nat) :
  Run vnil (exec (concMode activate) s).1.2
  = ((Run vnil s).1, (exec (concMode activate) (Run vnil s).2).1.2) ∧
  RunConc vnil n sched (exec (concMode activate) s).1.2
  = ((RunConc vnil n sched s).1,
     (exec (concMode activate) (RunConc vnil n sched s).2).1.2) ∧
  isConc (prog (Run vnil (exec (concMode activate) s).1.2).2) = activate ∧
  isConc (prog (RunConc vnil n sched (exec (concMode activate) s).1.2).2)
  = activate.
Proof.
  assert (∀ s0 : State V St,
            (exec (concMode activate) s0).1.2 = write_isConc activate s0) as Hc.
  { intros s0. by destruct activate. }
  assert (Run vnil (write_isConc activate s)
          = ((Run vnil s).1, write_isConc activate (Run vnil s).2)) as HRun.
  { unfold Run.
    rewrite (exec_flag _ _ _ flag_blind_callOnStart).
    destruct (exec callOnStart s) as [[o1 s1] m1]. cbn [fst snd].
    change (Tasks (prog (write_isConc activate s1))) with (Tasks (prog s1)).
    rewrite (exec_flag (run vnil (Tasks (prog s1)) 0) _ _
               (flag_blind_run_from _ _ _ _ _)).
    destruct (exec (run vnil (Tasks (prog s1)) 0) s1) as [[o2 s2] m2].
    cbn [fst snd].
    rewrite (exec_flag _ _ _ (flag_blind_callOnFinish _)).
    by destruct (exec (callOnFinish (named_result o2)) s2) as [[o3 s3] m3]. }
  assert (RunConc vnil n sched (write_isConc activate s)
          = ((RunConc vnil n sched s).1,
             write_isConc activate (RunConc vnil n sched s).2)) as HConc.
  { unfold RunConc.
    rewrite (exec_flag _ _ _ flag_blind_callOnStart).
    destruct (exec callOnStart s) as [[o1 s1] m1]. cbn [fst snd].
    rewrite RunConc_body_flag.
    destruct (RunConc_body vnil n sched s1) as [o2 s2]. cbn [fst snd].
    destruct o2 as [r| |]; try done;
      rewrite (exec_flag _ _ _ (flag_blind_callOnFinish _));
      by destruct (exec (callOnFinish _) s2) as [[o3 s3] m3]. }
  rewrite !Hc, HRun, HConc. done.
Qed.

End more.

(** X12.  The programs of the test suite: for every [k], on a program
    whose tasks are [tasks(k)] and that has no on-finish hook (as in
    [TestResults]; the other hooks and the interval are arbitrary), [Run]
    returns ["task0"], ..., ["task(k-1)"] in order, and with at least one
    task so does [RunConc(n)], for every [n] and under every schedule. *)
Theorem tasks_results {St : Type} (s : State string St) (k : nat) :
  Tasks (prog s) = tasks k → OnFinish (prog s) = None →
  (Run "" s).1 = Returned ((λ i : nat, "task" +:+ pretty i) <$> seq 0 k) ∧
  (∀ n sched, k ≠ 0%nat →
     (RunConc "" n sched s).1
     = Returned ((λ i : nat, "task" +:+ pretty i) <$> seq 0 k)).
Proof.
  intros Hts _.
  assert (Forall2 pure_task (Tasks (prog s))
            ((λ i : nat, "task" +:+ pretty i) <$> seq 0 k)) as Hpure.
  { rewrite Hts. unfold tasks.
    apply Forall2_fmap_2, Forall_Forall2_diag, Forall_forall.
    by intros i _ σ. }
  split.
  - destruct (Run_spec "" s) as (vs & s' & -> & _ & Hvs & _). simpl.
    by rewrite (pure_returns _ _ _ Hpure Hvs).
  - intros n sched Hk.
    apply (RunConc_agrees_with_Run "" s n sched _ Hpure).
    left. rewrite Hts. by destruct k.
Qed.

(** X13.  For a non-empty task list the normalisation is a projection onto
    [1 .. L]: it is idempotent, monotone in the requested count, and leaves
    exactly the counts between 1 and [L] as they are. *)
Theorem safeRunnerQuantity_projection (L n n' : Z) :
  1 ≤ L →
  safeRunnerQuantity (safeRunnerQuantity n L) L = safeRunnerQuantity n L ∧
  (n ≤ n' → safeRunnerQuantity n L ≤ safeRunnerQuantity n' L) ∧
  (safeRunnerQuantity n L = n ↔ 1 ≤ n ≤ L).
Proof. intros HL. split_and!; [runner_cases|runner_cases|split; runner_cases]. Qed.

(** ** Instances *)

Lemma safeRunnerQuantity_projection_witness :
  safeRunnerQuantity (safeRunnerQuantity 9 4) 4 = safeRunnerQuantity 9 4.
Proof.
  assert (1 ≤ 4) as H by lia.
  exact (proj1 (safeRunnerQuantity_projection 4 9 9 H)).
Defined.

Lemma merge_restores_order_witness :
  foldl (λ results r, results ++ res r) []
    (SliceStable less_id
       [mkTracked 2 ["e"]; mkTracked 0 ["a"; "b"]; mkTracked 1 ["c"; "d"]])
  = ["a"; "b"; "c"; "d"; "e"].
Proof.
  apply (merge_restores_order [["a"; "b"]; ["c"; "d"]; ["e"]]).
  apply (Permutation_cons_append
           [mkTracked 0 ["a"; "b"]; mkTracked 1 ["c"; "d"]]
           (mkTracked 2 ["e"])).
Defined.

Lemma RunConc_normalised_witness :
  RunConc "" 9 [2; 0; 1]%nat (initial (hooked 3 0) 0%nat)
  = RunConc "" 3 [2; 0; 1]%nat (initial (hooked 3 0) 0%nat).
Proof.
  assert (Tasks (prog (initial (hooked 3 0) 0%nat)) ≠ []) as H by done.
  exact (RunConc_normalised "" (initial (hooked 3 0) 0%nat) 9
           [2; 0; 1]%nat H).
Defined.

Lemma RunConc_single_runner_is_Run_witness :
  RunConc "" (-3) [0; 0]%nat (initial (hooked 3 10) 0%nat)
  = Run "" (initial (hooked 3 10) 0%nat).
Proof.
  assert (Tasks (prog (initial (hooked 3 10) 0%nat)) ≠ []) as H0 by done.
  assert (-3 ≤ 0) as H by lia.
  exact (RunConc_single_runner_is_Run "" (initial (hooked 3 10) 0%nat) (-3)
           [0; 0]%nat H0 (or_introl H)).
Defined.

Lemma tasks_results_witness :
  (RunConc "" 3 [2; 0; 1; 1]%nat (initial (bare 7) ())).1
  = Returned ((λ i : nat, "task" +:+ pretty i) <$> seq 0 7).
Proof.
  assert (7 ≠ 0)%nat as H by discriminate.
  exact (proj2 (tasks_results (initial (bare 7) ()) 7 eq_refl eq_refl)
           3 [2; 0; 1; 1]%nat H).
Defined.


(** * The caller's memory *)

Section memory.

Context {V St : Type} (vnil : V).

Implicit Types (p : Program V St) (s : State V St) (t : list (Event V)).

Lemma replay_app p t1 t2 (σ : St) :
  replay p (t1 ++ t2) σ = replay p t2 (replay p t1 σ).
Proof. apply foldl_app. Qed.

Lemma replays_refl p s : prog s = p → replays p s s.
Proof. intros. split; [done|]. exists []. by rewrite app_nil_r. Qed.

Lemma replays_trans p s1 s2 s3 :
  replays p s1 s2 → replays p s2 s3 → replays p s1 s3.
Proof.
  intros (_ & t1 & Ht1 & Hw1) (Hp & t2 & Ht2 & Hw2). split; [done|].
  exists (t1 ++ t2). by rewrite Ht2, Ht1, Hw2, Hw1, replay_app, app_assoc.
Qed.

Lemma replays_world p s s' :
  replays p s s' →
  world s' = replay p (drop (length (trace s)) (trace s')) (world s).
Proof. intros (_ & t & -> & ->). by rewrite drop_app_length. Qed.

Lemma replayable_bind {A B} p (w : Proc V St A) (k : A → Proc V St B) :
  replayable p w → (∀ a, replayable p (k a)) → replayable p (bind w k).
Proof.
  intros Hw Hk.
  induction w as [a|k' IH|b k' IH|h e k' IH|f k' IH|d k' IH|r k' IH|];
    simpl in *; auto.
  - destruct Hw. auto.
  - destruct Hw. auto.
Qed.

Lemma replayable_callPreHook p idx : replayable p (callPreHook idx).
Proof.
  unfold callPreHook. simpl. destruct (PreHook p) as [h|] eqn:Hh; [|done].
  split; [|done]. intros σ. simpl. by rewrite Hh.
Qed.

Lemma replayable_callPostHook p idx (v : V) :
  replayable p (callPostHook idx v).
Proof.
  unfold callPostHook. simpl. destruct (PostHook p) as [h|] eqn:Hh; [|done].
  split; [|done]. intros σ. simpl. by rewrite Hh.
Qed.

Lemma replayable_callOnStart p : replayable p callOnStart.
Proof.
  unfold callOnStart. simpl. destruct (OnStart p) as [h|] eqn:Hh; [|done].
  split; [|done]. intros σ. simpl. by rewrite Hh.
Qed.

Lemma replayable_callOnFinish p (results : list V) :
  replayable p (callOnFinish results).
Proof.
  unfold callOnFinish. simpl. destruct (OnFinish p) as [h|] eqn:Hh; [|done].
  split; [|done]. intros σ. simpl. by rewrite Hh.
Qed.

Lemma replayable_pause p isLast : replayable p (pause isLast).
Proof.
  unfold pause. simpl.
  by destruct (bool_decide (Interval p > 0) && negb isLast).
Qed.

Lemma replayable_run_from p l offset i (ts : list (Task V St)) results :
  Forall memory_neutral ts → replayable p (run_from l offset i ts results).
Proof.
  intros HF. revert i results.
  induction HF as [|f ts Hf _ IH]; intros i results; [done|].
  cbn [run_from].
  apply replayable_bind; [apply replayable_callPreHook|intros _].
  apply replayable_bind; [done|intros v].
  apply replayable_bind; [by destruct (go_store results i v)|intros r].
  apply replayable_bind; [apply replayable_callPostHook|intros _].
  apply replayable_bind; [apply replayable_pause|intros _]. apply IH.
Qed.

Lemma replayable_goroutine p (part : list (Task V St)) i :
  Forall memory_neutral part → replayable p (goroutine vnil part i).
Proof.
  intros. apply replayable_bind; [by apply replayable_run_from|done].
Qed.

Lemma replays_observe p s e (h : St → St) :
  prog s = p → (∀ σ, h σ = replay_event p e σ) →
  replays p s (observe e (with_world (h (world s)) s)).
Proof.
  intros Hp Hh. split; [done|]. exists [e]. simpl. by rewrite Hh.
Qed.

Lemma step_replays {A} p (w : Proc V St A) s :
  prog s = p → replayable p w →
  replayable p (step w s).1.1 ∧ replays p s (step w s).1.2.
Proof.
  intros Hp Hw.
  destruct w as [a|k|b k|h e k|f k|d k|r k|]; simpl in *; try done.
  - split; [done|by apply replays_refl].
  - subst p. split; [done|by apply replays_refl].
  - destruct Hw as [Hh Hk]. split; [done|by apply replays_observe].
  - destruct Hw as [Hf Hk]. specialize (Hf (world s)).
    destruct (f (world s)) as [v σ]. simpl in *. subst σ.
    split; [done|]. by apply (replays_observe p s (EvTask v) (λ σ, σ)).
  - split; [done|]. split; [done|]. by exists [EvSleep d].
  - split; [done|by apply replays_refl].
  - split; [done|by apply replays_refl].
Qed.

Lemma exec_replays {A} p (w : Proc V St A) s :
  prog s = p → replayable p w → replays p s (exec w s).1.2.
Proof.
  revert s.
  induction w as [a|k IH|b k IH|h e k IH|f k IH|d k IH|r k IH|];
    intros s Hp Hw; simpl in *; try done.
  - by apply replays_refl.
  - subst p. by apply IH.
  - destruct Hw as [Hh Hk].
    eapply replays_trans; [by apply replays_observe|]. by apply IH.
  - destruct Hw as [Hf Hk]. specialize (Hf (world s)).
    destruct (f (world s)) as [v σ]. simpl in *. subst σ.
    eapply replays_trans;
      [by apply (replays_observe p s (EvTask v) (λ σ, σ))|].
    by apply IH.
  - eapply replays_trans; [|by apply IH].
    split; [done|]. by exists [EvSleep d].
  - specialize (IH s Hp Hw). by destruct (exec k s) as [[??]?].
  - by apply replays_refl.
Qed.

Lemma run_all_replays p (pool : list (Proc V St unit)) s s' m :
  prog s = p → Forall (replayable p) pool →
  run_all pool s = Some (s', m) → replays p s s'.
Proof.
  intros Hp HF. revert s m Hp.
  induction HF as [|w pool Hw _ IH]; intros s m Hp Hr.
  - simplify_eq/=. by apply replays_refl.
  - simpl in Hr. pose proof (exec_replays p w s Hp Hw) as He.
    destruct (exec w s) as [[[[]| |] s1] m1]; try done. simpl in He.
    destruct (run_all pool s1) as [[s2 m2]|] eqn:Hr2; simplify_eq/=.
    eapply replays_trans; [done|]. eapply IH; [|done]. by destruct He.
Qed.

Lemma interleave_replays p sched (pool : list (Proc V St unit)) s s' m :
  prog s = p → Forall (replayable p) pool →
  interleave sched pool s = Some (s', m) → replays p s s'.
Proof.
  revert pool s m. induction sched as [|k sched IH]; intros pool s m Hp HF Hi.
  - by eapply run_all_replays.
  - simpl in Hi. destruct (pool !! k) as [w|] eqn:Hk; [|by eapply IH].
    pose proof (Forall_lookup_1 _ _ _ _ HF Hk) as Hw.
    destruct (step_replays p w s Hp Hw) as [Hw' Hs].
    assert (match step w s with (w', s1, sent) =>
              '(s'', sent') ← interleave sched (<[k := w']> pool) s1;
              Some (s'', sent ++ sent') end = Some (s', m)) as Hi'.
    { by destruct w. }
    destruct (step w s) as [[w' s1] m1]. simpl in *.
    destruct (interleave sched (<[k:=w']> pool) s1) as [[s2 m2]|] eqn:Hi2;
      simplify_eq/=.
    eapply replays_trans; [done|].
    eapply IH; [by destruct Hs| |done]. by apply Forall_insert.
Qed.

Lemma dispatch_replayable p (ts : list (Task V St)) L w span pool :
  Forall memory_neutral ts →
  dispatch vnil ts L w span = Some pool → Forall (replayable p) pool.
Proof.
  intros Hts Hd%mapM_Some_1. induction Hd as [|i g ids pool Hg _ IH]; [done|].
  constructor; [|done].
  destruct (zone L w span i) as [lo hi]. unfold go_slice in Hg.
  case_bool_decide; simplify_eq/=.
  apply replayable_goroutine. by apply Forall_take, Forall_drop.
Qed.

Lemma RunConc_body_replays n sched s :
  Forall memory_neutral (Tasks (prog s)) →
  replays (prog s) s (RunConc_body vnil n sched s).2.
Proof.
  intros Hts. unfold RunConc_body. cbv zeta.
  destruct (go_div _ _) as [span|]; [|by apply replays_refl].
  destruct (dispatch _ _ _ _ _) as [pool|] eqn:Hd; [|by apply replays_refl].
  apply (dispatch_replayable (prog s)) in Hd; [|done].
  destruct (interleave sched pool s) as [[s' m]|] eqn:Hi;
    [|by apply replays_refl].
  apply (interleave_replays (prog s)) in Hi; [|done..].
  by destruct (gather _ m).
Qed.

Lemma Run_replays s :
  Forall memory_neutral (Tasks (prog s)) →
  replays (prog s) s (Run vnil s).2.
Proof.
  intros Hts.
  pose proof (exec_replays (prog s) callOnStart s eq_refl
                (replayable_callOnStart _)) as H1.
  unfold Run. destruct (exec callOnStart s) as [[o1 s1] m1]. simpl in H1.
  assert (prog s1 = prog s) as Hp1 by (by destruct H1).
  pose proof (exec_replays (prog s) (run vnil (Tasks (prog s1)) 0) s1 Hp1)
    as H2.
  destruct (exec (run vnil (Tasks (prog s1)) 0) s1) as [[o2 s2] m2].
  simpl in H2.
  assert (replays (prog s) s1 s2) as H2'.
  { apply H2, replayable_run_from. by rewrite Hp1. }
  pose proof (exec_replays (prog s) (callOnFinish (named_result o2)) s2
                (proj1 H2') (replayable_callOnFinish _ _)) as H3.
  destruct (exec (callOnFinish (named_result o2)) s2) as [[o3 s3] m3].
  simpl in *. eauto using replays_trans.
Qed.

Lemma RunConc_replays n sched s :
  Forall memory_neutral (Tasks (prog s)) →
  replays (prog s) s (RunConc vnil n sched s).2.
Proof.
  intros Hts.
  pose proof (exec_replays (prog s) callOnStart s eq_refl
                (replayable_callOnStart _)) as H1.
  unfold RunConc. destruct (exec callOnStart s) as [[o1 s1] m1].
  simpl in H1.
  assert (prog s1 = prog s) as Hp1 by (by destruct H1).
  pose proof (RunConc_body_replays n sched s1) as H2. rewrite Hp1 in H2.
  specialize (H2 Hts).
  destruct (RunConc_body vnil n sched s1) as [o2 s2]. simpl in H2.
  pose proof (exec_replays (prog s) (callOnFinish (named_result o2)) s2
                (proj1 H2) (replayable_callOnFinish _ _)) as H3.
  destruct o2 as [r| |];
    [destruct (exec (callOnFinish (named_result (Returned r))) s2)
       as [[o3 s3] m3]
    |destruct (exec (callOnFinish (named_result (@Panicked (list V)))) s2)
       as [[o3 s3] m3]
    |]; simpl in *; eauto using replays_trans.
Qed.

(** X14.  The runner writes nothing to the caller's memory itself: when
    the tasks leave that memory alone, the memory after [Run], and after
    [RunConc] for every requested count and every schedule (however the
    call ends), is the memory before with the hooks applied to it one
    after the other, in the order and with the arguments of their calls. *)
Theorem memory_only_through_hooks (s : State V St) (n : Z)
    (sched : list nat) :
  Forall memory_neutral (Tasks (prog s)) →
  world (Run vnil s).2
  = replay (prog s) (drop (length (trace s)) (trace (Run vnil s).2))
      (world s) ∧
  world (RunConc vnil n sched s).2
  = replay (prog s)
      (drop (length (trace s)) (trace (RunConc vnil n sched s).2)) (world s).
Proof.
  intros Hts. split; apply replays_world.
  - by apply Run_replays.
  - by apply RunConc_replays.
Qed.

End memory.

(** ** [TestHooks] *)


Lemma tasks_memory_neutral {St : Type} (k : nat) :
  Forall memory_neutral (tasks (St:=St) k).
Proof. unfold tasks. apply Forall_fmap, Forall_forall. by intros i _ σ. Qed.




Lemma memory_only_through_hooks_witness :
  world (RunConc "" 2 [1; 0; 1]%nat (initial (hooked 4 0) 0%nat)).2
  = replay (hooked 4 0)
      (trace (RunConc "" 2 [1; 0; 1]%nat (initial (hooked 4 0) 0%nat)).2)
      0%nat.
Proof.
  exact (proj2 (memory_only_through_hooks "" (initial (hooked 4 0) 0%nat) 2
                  [1; 0; 1]%nat (tasks_memory_neutral 4))).
Defined.


(** * What the hooks are handed *)

Section arguments.

Context {V St : Type} (vnil : V).

Implicit Types (p : Program V St) (s : State V St) (t : list (Event V)).

Lemma Forall2_conj {A B} (P Q : A → B → Prop) (l : list A) (k : list B) :
  Forall2 P l k → Forall2 Q l k → Forall2 (λ a b, P a b ∧ Q a b) l k.
Proof.
  intros HP. induction HP; intros HQ; inv HQ; constructor; auto.
Qed.

Lemma nonempty_len {A} (ts : list A) : ts ≠ [] → 1 ≤ len ts.
Proof. unfold len. destruct ts; [done|simpl; lia]. Qed.

(** With as many runners as tasks every zone is one index wide and holds
    the task at that index. *)
Lemma unit_zones L : zones L L (L ÷ L) = (λ i, (i, i + 1)) <$> seqZ 0 L.
Proof.
  destruct (decide (L ≤ 0)) as [HL|HL].
  - unfold zones. by rewrite seqZ_nil.
  - rewrite Z.quot_same by lia. unfold zones.
    apply list_fmap_ext. intros k i [-> Hi]%lookup_seqZ.
    unfold zone. case_bool_decide; f_equal; lia.
Qed.

Lemma unit_shards {A} (ts : list A) :
  shard ts <$> ((λ i, (i, i + 1)) <$> seqZ 0 (len ts)) = (λ f, [f]) <$> ts.
Proof.
  apply list_eq. intros k. rewrite !list_lookup_fmap.
  destruct (ts !! k) as [f|] eqn:Hk.
  - pose proof (lookup_lt_Some _ _ _ Hk) as Hlt.
    rewrite (lookup_seqZ_lt 0 (len ts) k) by (unfold len; lia). simpl.
    unfold shard. simpl.
    replace (Z.to_nat (0 + Z.of_nat k + 1 - (0 + Z.of_nat k))) with 1%nat by lia.
    replace (Z.to_nat (0 + Z.of_nat k)) with k by lia.
    by rewrite (drop_S _ _ _ Hk).
  - apply lookup_ge_None in Hk.
    rewrite (lookup_seqZ_ge 0 (len ts) k) by (unfold len; lia). done.
Qed.

(** Hook completeness wherever a result is returned: with the four hooks
    set, after [Run], and after [RunConc] whenever it has a runner (at
    least one task, or [n <= 0]; under every schedule), the observations
    are the on-start hook, then [L] pre-task and [L] post-task hooks and
    neither of the other two, then the on-finish hook on the result
    sequence, which is the one returned; when the tasks leave the caller's
    memory alone, that memory is the on-start hook applied first, the
    per-task hooks applied with the arguments observed, and the on-finish
    hook applied last, to the sequence returned. *)
Lemma hooks_complete_with_runner (s : State V St) pre post start finish :
  PreHook (prog s) = Some pre → PostHook (prog s) = Some post →
  OnStart (prog s) = Some start → OnFinish (prog s) = Some finish →
  ∀ r, r = Run vnil s ∨
       (∃ n sched, (Tasks (prog s) ≠ [] ∨ n ≤ 0) ∧ r = RunConc vnil n sched s) →
  ∃ vs mid,
    r.1 = Returned vs ∧
    trace r.2 = trace s ++ [EvStart] ++ mid ++ [EvFinish vs] ∧
    Forall2 returns (Tasks (prog s)) vs ∧
    count is_pre mid = length (Tasks (prog s)) ∧
    count is_post mid = length (Tasks (prog s)) ∧
    count is_start mid = 0%nat ∧ count is_finish mid = 0%nat ∧
    (Forall memory_neutral (Tasks (prog s)) →
       world r.2 = finish vs (replay (prog s) mid (start (world s)))).
Proof.
  intros Hpre Hpost Hstart Hfinish r Hr.
  assert (∀ vs mid,
            trace r.2 = trace s ++ [EvStart] ++ mid ++ [EvFinish vs] →
            replays (prog s) s r.2 →
            world r.2 = finish vs (replay (prog s) mid (start (world s))))
    as Hworld.
  { intros vs mid Ht Hrep. rewrite (replays_world _ _ _ Hrep), Ht.
    rewrite drop_app_length, !replay_app. simpl. by rewrite Hstart, Hfinish. }
  destruct Hr as [->|(n & sched & Hcase & ->)].
  - destruct (Run_spec vnil s) as (vs & s' & HR & Hp & Hvs & Ht).
    unfold start_events, finish_events in Ht. rewrite Hstart, Hfinish in Ht.
    pose proof (Forall2_length _ _ _ Hvs) as Hlen.
    pose proof (Run_replays vnil s) as Hrep. rewrite HR in *. simpl in *.
    eexists vs, _. split_and!; [done|exact Ht|done|..].
    + by rewrite count_pre_loop, Hpre.
    + by rewrite count_post_loop, Hpost.
    + apply count_start_loop.
    + apply count_finish_loop.
    + intros Hts. by apply Hworld; [|apply Hrep].
  - pose proof (has_runner _ n Hcase) as Hw.
    destruct (RunConc_returns vnil n sched s Hw)
      as (vss & T & s' & HR & Hp & Hsh & Hvs & Ht & HT).
    unfold start_events, finish_events in Ht. rewrite Hstart, Hfinish in Ht.
    pose proof (Forall2_length _ _ _ Hvs) as Hlen.
    assert (length (seqZ 0 (safeRunnerQuantity n (len (Tasks (prog s)))))
            = length vss) as Hids.
    { rewrite <-(Forall2_length _ _ _ Hsh). unfold zones.
      by rewrite !length_fmap. }
    pose proof (RunConc_replays vnil n sched s) as Hrep.
    rewrite HR in *. simpl in *.
    exists (concat vss), T.
    split_and!; [done|exact Ht|done|..|intros Hts; by apply Hworld; [|apply Hrep]];
      rewrite HT.
    + rewrite (count_runners _ _ 1) by
        (done || (intros; rewrite count_pre_loop, Hpre; lia)). lia.
    + rewrite (count_runners _ _ 1) by
        (done || (intros; rewrite count_post_loop, Hpost; lia)). lia.
    + rewrite (count_runners _ _ 0) by
        (done || (intros; rewrite count_start_loop; lia)). lia.
    + rewrite (count_runners _ _ 0) by
        (done || (intros; rewrite count_finish_loop; lia)). lia.
Qed.

(** X1.  The contract of the core loop on the arguments of the hooks: over
    any sub-sequence and with any offset for which the indices fit an
    [int], the pre-task hook (if set) is called once per task with
    [offset], [offset + 1], ... in this order, and the post-task hook (if
    set) with the same indices, each paired with the value the task at that
    position returned; when the tasks leave the caller's memory alone, that
    memory is afterwards what the hooks of the program make of it, applied
    in the order and with the arguments of these calls. *)
Theorem run_hook_arguments (s : State V St) (ts : list (Task V St))
    (offset : Z) :
  fits_int offset → fits_int (offset + len ts) →
  ∃ vs s',
    exec (run vnil ts offset) s = (Returned vs, s', []) ∧
    Forall2 returns ts vs ∧
    filter (λ e, is_pre e) (drop (length (trace s)) (trace s'))
    = (if PreHook (prog s) is Some _
       then EvPre <$> seqZ offset (len ts) else []) ∧
    filter (λ e, is_post e) (drop (length (trace s)) (trace s'))
    = (if PostHook (prog s) is Some _
       then zip_with EvPost (seqZ offset (len ts)) vs else []) ∧
    (Forall memory_neutral ts →
       world s'
       = replay (prog s) (drop (length (trace s)) (trace s')) (world s)).
Proof.
  intros _ _.
  destruct (exec_run vnil ts offset s) as (vs & s' & He & Hp & Hvs & Ht).
  assert (len ts = len vs) as HL
    by (unfold len; by rewrite (Forall2_length _ _ _ Hvs)).
  exists vs, s'. split_and!; [done|done|..].
  - by rewrite Ht, drop_app_length, HL, pre_events_loop.
  - by rewrite Ht, drop_app_length, HL, post_events_loop.
  - intros Hts.
    pose proof (exec_replays (prog s) (run vnil ts offset) s eq_refl
                  (replayable_run_from _ _ _ _ _ _ Hts)) as Hrep.
    rewrite He in Hrep. by apply replays_world.
Qed.

(** X4.  Program order in concurrent mode: whenever [RunConc] has a runner
    (at least one task, or [n <= 0]), under every schedule the result is
    made of the results [vss] of the runners, those of runner [i] being
    returned by the tasks of zone [i], one each and in order; the
    observations between the on-start and the on-finish hook are an
    interleaving of the observations of the runners, and those of runner
    [i] (pre-task hook, task, post-task hook, pause, for each task of its
    zone in turn, with offset [i]) keep their order.  When the tasks leave
    the caller's memory alone, that memory is afterwards the hooks applied
    in the order of this trace. *)
Theorem RunConc_program_order (s : State V St) (n : Z) (sched : list nat) :
  Tasks (prog s) ≠ [] ∨ n ≤ 0 →
  let L := len (Tasks (prog s)) in
  let w := safeRunnerQuantity n L in
  ∃ vss T s',
    RunConc vnil n sched s = (Returned (concat vss), s') ∧
    trace s' = trace s ++ start_events (prog s) ++ T ++
               finish_events (prog s) (concat vss) ∧
    Forall2 (Forall2 returns)
      (shard (Tasks (prog s)) <$> zones L w (L ÷ w)) vss ∧
    Forall2 (λ i vs, loop_events (prog s) (len vs) i 0 vs `sublist_of` T)
      (seqZ 0 w) vss ∧
    T ≡ₚ concat (zip_with (λ i vs, loop_events (prog s) (len vs) i 0 vs)
                   (seqZ 0 w) vss) ∧
    (Forall memory_neutral (Tasks (prog s)) →
       world s'
       = replay (prog s)
           (start_events (prog s) ++ T ++ finish_events (prog s) (concat vss))
           (world s)).
Proof.
  intros Hcase L w.
  destruct (RunConc_ordered vnil n sched s Hcase)
    as (vss & T & s' & HR & _ & Hsh & _ & Ht & Hsub & HT).
  exists vss, T, s'. split_and!; try done.
  intros Hts. pose proof (RunConc_replays vnil n sched s Hts) as Hrep.
  rewrite HR in Hrep. apply replays_world in Hrep. cbn [snd] in Hrep.
  by rewrite Hrep, Ht, drop_app_length.
Qed.

(** X5.  What the hooks receive in concurrent mode: whenever [RunConc] has
    a runner, under every schedule, runner [i], whose zone holds [k]
    tasks, runs the core loop over these tasks with offset [i]: its
    observations, which keep their order in the trace of the run, call the
    pre-task hook with [i], [i + 1], ..., [i + k - 1], and the post-task
    hook with the same indices and the results of its tasks.  The calls of
    the whole run are those of all the runners, in some order, and when the
    tasks leave the caller's memory alone, that memory is afterwards the
    hooks applied with these arguments, in the order of the trace. *)
Theorem RunConc_hook_arguments (s : State V St) (n : Z) (sched : list nat) :
  Tasks (prog s) ≠ [] ∨ n ≤ 0 →
  let L := len (Tasks (prog s)) in
  let w := safeRunnerQuantity n L in
  ∃ vss T s',
    RunConc vnil n sched s = (Returned (concat vss), s') ∧
    trace s' = trace s ++ start_events (prog s) ++ T ++
               finish_events (prog s) (concat vss) ∧
    Forall2 (λ i vs,
        Forall2 returns (shard (Tasks (prog s)) (zone L w (L ÷ w) i)) vs ∧
        len vs = (zone L w (L ÷ w) i).2 - (zone L w (L ÷ w) i).1 ∧
        loop_events (prog s) (len vs) i 0 vs `sublist_of` T ∧
        filter (λ e, is_pre e) (loop_events (prog s) (len vs) i 0 vs)
        = (if PreHook (prog s) is Some _
           then EvPre <$> seqZ i (len vs) else []) ∧
        filter (λ e, is_post e) (loop_events (prog s) (len vs) i 0 vs)
        = (if PostHook (prog s) is Some _
           then zip_with EvPost (seqZ i (len vs)) vs else []))
      (seqZ 0 w) vss ∧
    T ≡ₚ concat (zip_with (λ i vs, loop_events (prog s) (len vs) i 0 vs)
                   (seqZ 0 w) vss) ∧
    filter (λ e, is_pre e) T
    ≡ₚ (if PreHook (prog s) is Some _
        then concat (zip_with (λ i vs, EvPre <$> seqZ i (len vs))
                       (seqZ 0 w) vss)
        else []) ∧
    filter (λ e, is_post e) T
    ≡ₚ (if PostHook (prog s) is Some _
        then concat (zip_with (λ i vs, zip_with EvPost (seqZ i (len vs)) vs)
                       (seqZ 0 w) vss)
        else []) ∧
    (Forall memory_neutral (Tasks (prog s)) →
       world s'
       = replay (prog s)
           (start_events (prog s) ++ T ++ finish_events (prog s) (concat vss))
           (world s)).
Proof.
  intros Hcase L w.
  destruct (RunConc_ordered vnil n sched s Hcase)
    as (vss & T & s' & HR & _ & Hsh & _ & Ht & Hsub & HT).
  pose proof (shard_sizes _ _ _ (has_runner _ n Hcase) Hsh) as Hsz.
  fold L in Hsh, Hsz. fold w in Hsh, Hsz, Hsub, HT.
  unfold zones in Hsh, Hsz.
  rewrite <-list_fmap_compose, Forall2_fmap_l in Hsh.
  rewrite Forall2_fmap_l in Hsz.
  exists vss, T, s'. split_and!; try done.
  - eapply Forall2_impl;
      [exact (Forall2_conj _ _ _ _ Hsh (Forall2_conj _ _ _ _ Hsz Hsub))|].
    intros i vs (Hret & Hlen & Hin). split_and!; try done.
    + by rewrite pre_events_loop, Z.add_0_l.
    + by rewrite post_events_loop, Z.add_0_l.
  - by rewrite HT, pre_events_runners.
  - by rewrite HT, post_events_runners.
  - intros Hts. pose proof (RunConc_replays vnil n sched s Hts) as Hrep.
    rewrite HR in Hrep. apply replays_world in Hrep. cbn [snd] in Hrep.
    by rewrite Hrep, Ht, drop_app_length.
Qed.

(** X6.  With at least as many runners requested as there are tasks
    ([n >= L >= 1]) there are [L] runners, zone [i] is [i, i + 1) and holds
    the [i]-th task alone, and under every schedule the hooks receive the
    global index of each task: the pre-task hook is called with each of
    [0 .. L-1] once, the post-task hook with each index and the result
    returned at that index; when the tasks leave the caller's memory alone,
    that memory is afterwards the hooks applied with the arguments
    observed, in the order of the trace. *)
Theorem RunConc_unit_zones_indices (s : State V St) (n : Z)
    (sched : list nat) :
  Tasks (prog s) ≠ [] → len (Tasks (prog s)) ≤ n →
  let L := len (Tasks (prog s)) in
  let w := safeRunnerQuantity n L in
  w = L ∧
  zones L w (L ÷ w) = (λ i, (i, i + 1)) <$> seqZ 0 L ∧
  shard (Tasks (prog s)) <$> zones L w (L ÷ w)
  = (λ f, [f]) <$> Tasks (prog s) ∧
  ∃ vs s',
    RunConc vnil n sched s = (Returned vs, s') ∧
    Forall2 returns (Tasks (prog s)) vs ∧
    filter (λ e, is_pre e) (drop (length (trace s)) (trace s'))
    ≡ₚ (if PreHook (prog s) is Some _ then EvPre <$> seqZ 0 L else []) ∧
    filter (λ e, is_post e) (drop (length (trace s)) (trace s'))
    ≡ₚ (if PostHook (prog s) is Some _
        then zip_with EvPost (seqZ 0 L) vs else []) ∧
    (Forall memory_neutral (Tasks (prog s)) →
       world s'
       = replay (prog s) (drop (length (trace s)) (trace s')) (world s)).
Proof.
  intros Hne Hn L w.
  pose proof (nonempty_len _ Hne) as HL. fold L in HL, Hn.
  assert (w = L) as Hw by (subst w; runner_cases).
  destruct (RunConc_ordered vnil n sched s (or_introl Hne))
    as (vss & T & s' & HR & _ & Hsh & Hvs & Ht & Hsub & HT).
  fold L in Hsh, Hsub, HT. fold w in Hsh, Hsub, HT.
  rewrite Hw in *.
  split_and!; [done|apply unit_zones|rewrite unit_zones; apply unit_shards|].
  apply shard_sizes in Hsh; [|done]. fold L in Hsh.
  rewrite unit_zones, Forall2_fmap_l in Hsh.
  assert (Forall (λ vs, len vs = 1) vss) as Hone.
  { eapply Forall2_Forall_r; [exact Hsh|].
    apply Forall_forall. intros i _ vs ->. simpl. lia. }
  apply Forall2_length in Hsub.
  exists (concat vss), s'. split_and!; [done|done|..].
  - rewrite Ht, drop_app_length, !filter_app.
    rewrite !filter_start_events, !filter_finish_events by done.
    rewrite !app_nil_r, HT. simpl.
    by rewrite pre_events_runners, singletons_pre.
  - rewrite Ht, drop_app_length, !filter_app.
    rewrite !filter_start_events, !filter_finish_events by done.
    rewrite !app_nil_r, HT. simpl.
    by rewrite post_events_runners, singletons_post.
  - intros Hts. pose proof (RunConc_replays vnil n sched s Hts) as Hrep.
    rewrite HR in Hrep. by apply replays_world in Hrep.
Qed.

End arguments.

(** ** Instances *)

Lemma run_hook_arguments_witness :
  ∃ vs s',
    exec (run "" (tasks 3) 7) (initial (hooked 3 0) 0%nat)
    = (Returned vs, s', []) ∧
    filter (λ e, is_pre e) (trace s') = [EvPre 7; EvPre 8; EvPre 9] ∧
    filter (λ e, is_post e) (trace s')
    = zip_with EvPost [7; 8; 9] vs.
Proof.
  assert (fits_int 7) as H1 by (unfold fits_int; lia).
  assert (fits_int (7 + len (tasks (St:=nat) 3))) as H2
    by (split; [vm_compute; discriminate|vm_compute; reflexivity]).
  destruct (run_hook_arguments "" (initial (hooked 3 0) 0%nat) (tasks 3) 7
              H1 H2)
    as (vs & s' & He & _ & Hpre & Hpost & _).
  exists vs, s'. split_and!; [exact He|exact Hpre|exact Hpost].
Defined.

Lemma RunConc_program_order_witness :
  ∃ vss T s',
    RunConc "" 2 [1; 0; 1; 1; 0]%nat (initial (hooked 5 5) 0%nat)
    = (Returned (concat vss), s') ∧
    Forall2 (Forall2 returns)
      (shard (tasks (St:=nat) 5) <$> [(0, 2); (2, 5)]) vss ∧
    Forall2 (λ i vs,
               loop_events (hooked 5 5) (len vs) i 0 vs `sublist_of` T)
      [0; 1] vss.
Proof.
  assert (Tasks (prog (initial (hooked 5 5) 0%nat)) ≠ []) as H by done.
  destruct (RunConc_program_order "" (initial (hooked 5 5) 0%nat) 2
              [1; 0; 1; 1; 0]%nat (or_introl H))
    as (vss & T & s' & HR & _ & Hsh & Hsub & _).
  exists vss, T, s'. split_and!; [exact HR|exact Hsh|exact Hsub].
Defined.

Lemma RunConc_hook_arguments_witness :
  ∃ vss (T : list (Event string)) s',
    RunConc "" 2 [1; 1; 0]%nat (initial (hooked 5 0) 0%nat)
    = (Returned (concat vss), s') ∧
    filter (λ e, is_pre e) T
    ≡ₚ concat (zip_with (λ i vs, EvPre <$> seqZ i (len vs)) [0; 1] vss).
Proof.
  assert (Tasks (prog (initial (hooked 5 0) 0%nat)) ≠ []) as H by done.
  destruct (RunConc_hook_arguments "" (initial (hooked 5 0) 0%nat) 2
              [1; 1; 0]%nat (or_introl H))
    as (vss & T & s' & HR & _ & _ & _ & Hpre & _).
  exists vss, T, s'. split; [exact HR|exact Hpre].
Defined.

Lemma RunConc_unit_zones_indices_witness :
  ∃ vs s',
    RunConc "" 7 [3; 1; 2; 0; 3]%nat (initial (hooked 4 0) 0%nat)
    = (Returned vs, s') ∧
    filter (λ e, is_pre e) (trace s') ≡ₚ [EvPre 0; EvPre 1; EvPre 2; EvPre 3].
Proof.
  assert (Tasks (prog (initial (hooked 4 0) 0%nat)) ≠ []) as H by done.
  assert (len (Tasks (prog (initial (hooked 4 0) 0%nat))) ≤ 7) as H'
    by (vm_compute; discriminate).
  destruct (RunConc_unit_zones_indices "" (initial (hooked 4 0) 0%nat) 7
              [3; 1; 2; 0; 3]%nat H H')
    as (_ & _ & _ & vs & s' & HR & _ & Hpre & _).
  exists vs, s'. split; [exact HR|exact Hpre].
Defined.
